(** * MusicHub: the audio-link engine ([audio-parser.js]) and the feed
      formatter ([app.js], [formatPostText]).

    A shallow embedding of the [AudioParser] class and of the part of
    [MusicHub.formatPostText] that precedes HTML escaping, together with the
    fragment of ECMAScript the two rely on: strings as sequences of UTF-16
    code units, regular expressions with the [g] and [i] flags and the
    [lastIndex] slot, [String.prototype.matchAll], [RegExp.prototype.test],
    [String.prototype.match], [String.prototype.replace] and
    [encodeURIComponent]. *)

From Stdlib Require Import String Ascii List Sorted NArith ZArith Arith Lia Bool
  DecimalString.
Import ListNotations.

Set Implicit Arguments.

(** ** Strings *)

(** A JavaScript string is a finite sequence of 16-bit code units. *)
Definition char := N.
Bind Scope N_scope with char.
Definition jstring := list char.

(** String literals of the source, as code units (the literals used here are
    ASCII; the one non-ASCII character of the source is spelled out where it
    occurs). *)
Definition chr (a : ascii) : char := N_of_ascii a.
Definition js (s : string) : jstring := map chr (list_ascii_of_string s).

Definition text_eqb (a b : jstring) : bool :=
  if list_eq_dec N.eq_dec a b then true else false.

(** [s.substring(i, i + n)] for [i + n <= s.length]. *)
Definition substring (i n : nat) (s : jstring) : jstring := firstn n (skipn i s).

(** ** Character classification *)

Definition in_range (lo hi c : char) : bool := ((lo <=? c) && (c <=? hi))%N.

Definition isUpper (c : char) : bool := in_range 65 90 c.
Definition isLower (c : char) : bool := in_range 97 122 c.
Definition isDigit (c : char) : bool := in_range 48 57 c.

(** [\w] without the [u] flag: [A-Za-z0-9_]. *)
Definition isWordChar (c : char) : bool :=
  isUpper c || isLower c || isDigit c || (c =? 95)%N.

(** [\s]: WhiteSpace and LineTerminator code points. *)
Definition isWhiteSpace (c : char) : bool :=
  in_range 9 13 c || (c =? 32)%N || (c =? 160)%N || (c =? 5760)%N ||
  in_range 8192 8202 c || (c =? 8232)%N || (c =? 8233)%N || (c =? 8239)%N ||
  (c =? 8287)%N || (c =? 12288)%N || (c =? 65279)%N.

(** Canonicalize of the regular-expression semantics, without the [u] flag.
    With [ignoreCase] a code unit is replaced by its upper-case form; a code
    unit of value 128 or more is never mapped below 128.  Every pattern
    character and class member of this program is ASCII or white space, so
    only the mapping of ASCII letters can decide a comparison, and the other
    code units are left as they are. *)
Definition toUpper (c : char) : char := if isLower c then (c - 32)%N else c.

Definition Canonicalize (ignoreCase : bool) (c : char) : char :=
  if ignoreCase then toUpper c else c.

(** ** Regular expressions *)

(** Members of a character class: a single character, [\w], [\s]. *)
Inductive citem : Type :=
| CChar (a : char)
| CWord
| CSpace.

(** A character class [[...]] or [[^...]]. *)
Record cset : Type := mkCset { negated : bool; members : list citem }.

(** The syntax the patterns of the program are written in.  [(?:...)] only
    groups and has no node of its own; the quantifier [+] occurs in the
    source on character classes only. *)
Inductive regex : Type :=
| Eps
| Chr (a : char)
| Cls (cs : cset)
| Cat (r1 r2 : regex)
| Alt (r1 r2 : regex)
| Opt (r : regex)
| Plus (cs : cset)
| Grp (n : nat) (r : regex).

Fixpoint lit_chars (l : list ascii) : regex :=
  match l with
  | [] => Eps
  | [a] => Chr (chr a)
  | a :: l' => Cat (Chr (chr a)) (lit_chars l')
  end.

(** A run of pattern characters. *)
Definition lit (s : string) : regex := lit_chars (list_ascii_of_string s).

Fixpoint seq (l : list regex) : regex :=
  match l with
  | [] => Eps
  | [r] => r
  | r :: l' => Cat r (seq l')
  end.

Fixpoint alts (l : list regex) : regex :=
  match l with
  | [] => Eps
  | [r] => r
  | r :: l' => Alt r (alts l')
  end.

(** Captures of a match in progress: group number and captured substring,
    most recent first. *)
Definition caps := list (nat * jstring).

Fixpoint capture (n : nat) (c : caps) : option jstring :=
  match c with
  | [] => None
  | (k, v) :: c' => if Nat.eqb k n then Some v else capture n c'
  end.

Section Matcher.

Variable ignoreCase : bool.

Definition citem_has (it : citem) (ch : char) : bool :=
  match it with
  | CChar a => (Canonicalize ignoreCase a =? Canonicalize ignoreCase ch)%N
  | CWord => isWordChar ch
  | CSpace => isWhiteSpace ch
  end.

(** CharacterSetMatcher. *)
Definition cset_has (cs : cset) (ch : char) : bool :=
  xorb (negated cs) (existsb (fun it => citem_has it ch) (members cs)).

Section Continuations.

Variable R : Type.

Definition orelse (a b : option R) : option R :=
  match a with Some x => Some x | None => b end.

(** Greedy [cs+]: take one character of the class, then prefer taking
    more over handing over to the continuation. *)
Fixpoint plus_m (cs : cset) (s : jstring) (k : jstring -> option R) : option R :=
  match s with
  | [] => None
  | ch :: s' =>
      if cset_has cs ch then orelse (plus_m cs s' k) (k s') else None
  end.

(** The backtracking matcher: [m r s c k] matches [r] at the front of [s]
    with captures [c] and hands the rest of the input and the captures to
    the continuation [k]; alternatives are tried left to right and
    quantifiers are greedy.  Every [?] of the program's patterns is on a
    group that consumes at least one character, so the rule that rejects an
    empty iteration of a quantifier has nothing to reject. *)
Fixpoint m (r : regex) (s : jstring) (c : caps)
    (k : jstring -> caps -> option R) : option R :=
  match r with
  | Eps => k s c
  | Chr a =>
      match s with
      | ch :: s' =>
          if (Canonicalize ignoreCase a =? Canonicalize ignoreCase ch)%N
          then k s' c else None
      | [] => None
      end
  | Cls cs =>
      match s with
      | ch :: s' => if cset_has cs ch then k s' c else None
      | [] => None
      end
  | Cat r1 r2 => m r1 s c (fun s' c' => m r2 s' c' k)
  | Alt r1 r2 => orelse (m r1 s c k) (m r2 s c k)
  | Opt r1 => orelse (m r1 s c k) (k s c)
  | Plus cs => plus_m cs s (fun s' => k s' c)
  | Grp n r1 =>
      m r1 s c
        (fun s' c' => k s' ((n, firstn (length s - length s') s) :: c'))
  end.

End Continuations.

(** One match attempt at the front of [s]: the length of the match and its
    captures. *)
Definition run (r : regex) (s : jstring) : option (nat * caps) :=
  m r s [] (fun s' c => Some (length s - length s', c)).

(** Does [r] match the whole of [w]? *)
Definition matches_exactly (r : regex) (w : jstring) : bool :=
  match m r w [] (fun s' _ => match s' with [] => Some tt | _ => None end) with
  | Some _ => true
  | None => false
  end.

(** The strings a pattern can match, by structure of the pattern. *)
Fixpoint lang (r : regex) (w : jstring) : Prop :=
  match r with
  | Eps => w = []
  | Chr a =>
      exists ch, w = [ch] /\
        Canonicalize ignoreCase a = Canonicalize ignoreCase ch
  | Cls cs => exists ch, w = [ch] /\ cset_has cs ch = true
  | Cat r1 r2 => exists w1 w2, w = w1 ++ w2 /\ lang r1 w1 /\ lang r2 w2
  | Alt r1 r2 => lang r1 w \/ lang r2 w
  | Opt r1 => w = [] \/ lang r1 w
  | Plus cs => w <> [] /\ Forall (fun ch => cset_has cs ch = true) w
  | Grp _ r1 => lang r1 w
  end.

End Matcher.

(** ** Regular-expression objects and the built-ins that use them *)

(** The result of one successful match: [index], [match[0]] and the
    captures. *)
Record MatchResult : Type := mkMatch {
  index : nat;
  matched : jstring;
  groups : caps
}.

Definition endIndex (mr : MatchResult) : nat := index mr + length (matched mr).

(** [match[n]] for [n >= 1]; [undefined] is [None]. *)
Definition group (n : nat) (mr : MatchResult) : option jstring :=
  capture n (groups mr).

Section Exec.

Variable ignoreCase : bool.
Variable r : regex.

Definition match_at (i : nat) (s : jstring) : option MatchResult :=
  match run ignoreCase r s with
  | Some (n, c) => Some (mkMatch i (firstn n s) c)
  | None => None
  end.

(** RegExpBuiltinExec, the search loop: [s] is the input from position [i]
    on and [skip] the number of positions still before [lastIndex].  The
    first position at or after [lastIndex] where the pattern matches wins;
    the position [s.length] is tried too. *)
Fixpoint exec_from (s : jstring) (i skip : nat) : option MatchResult :=
  match skip with
  | S k =>
      match s with
      | [] => None
      | _ :: s' => exec_from s' (S i) k
      end
  | O =>
      match match_at i s with
      | Some mr => Some mr
      | None =>
          match s with
          | [] => None
          | _ :: s' => exec_from s' (S i) 0
          end
      end
  end.

(** [exec] on a string [s] with [lastIndex] (for a pattern without the [g]
    flag the search starts at 0). *)
Definition exec (s : jstring) (lastIndex : nat) : option MatchResult :=
  exec_from s 0 lastIndex.

(** The matches a [matchAll] iterator yields for a pattern with the [g]
    flag: each search starts where the previous match ended, one position
    further when that match was empty. *)
Fixpoint matchAll_from (s : jstring) (i skip : nat) : list MatchResult :=
  match skip with
  | S k =>
      match s with
      | [] => []
      | _ :: s' => matchAll_from s' (S i) k
      end
  | O =>
      match match_at i s with
      | Some mr =>
          mr :: match s with
                | [] => []
                | _ :: s' => matchAll_from s' (S i) (pred (length (matched mr)))
                end
      | None =>
          match s with
          | [] => []
          | _ :: s' => matchAll_from s' (S i) 0
          end
      end
  end.

Definition matchAll (s : jstring) (lastIndex : nat) : list MatchResult :=
  matchAll_from s 0 lastIndex.

End Exec.

(** A regular-expression object: its pattern, the flags that matter here and
    the mutable [lastIndex] slot. *)
Record RegExp : Type := mkRegExp {
  source : regex;
  global : bool;
  ignoreCase : bool;
  lastIndex : nat
}.

Definition set_lastIndex (n : nat) (re : RegExp) : RegExp :=
  mkRegExp (source re) (global re) (ignoreCase re) n.

(** A regular-expression literal [/.../flags], freshly evaluated. *)
Definition literal (r : regex) (g i : bool) : RegExp := mkRegExp r g i 0.

(** RegExpBuiltinExec: the search starts at [lastIndex] when the pattern has
    the [g] flag and at 0 otherwise; with the [g] flag [lastIndex] is set to
    the end of the match on success and to 0 on failure. *)
Definition RegExp_exec (re : RegExp) (s : jstring) : option MatchResult * RegExp :=
  let start := if global re then lastIndex re else 0 in
  match exec (ignoreCase re) (source re) s start with
  | Some mr =>
      (Some mr, if global re then set_lastIndex (endIndex mr) re else re)
  | None => (None, if global re then set_lastIndex 0 re else re)
  end.

(** [re.test(s)]. *)
Definition RegExp_test (re : RegExp) (s : jstring) : bool * RegExp :=
  match RegExp_exec re s with
  | (Some _, re') => (true, re')
  | (None, re') => (false, re')
  end.

(** [s.match(re)] for a pattern without the [g] flag. *)
Definition String_match (s : jstring) (re : RegExp) : option MatchResult :=
  fst (RegExp_exec re s).

(** [s.matchAll(re)] for a pattern with the [g] flag: the iteration runs on a
    copy of [re] that starts at the [lastIndex] of [re]; [re] itself is not
    written. *)
Definition String_matchAll (s : jstring) (re : RegExp) : list MatchResult :=
  matchAll (ignoreCase re) (source re) s (lastIndex re).

(** [s.replace(searchValue, replaceValue)] with a string [searchValue] and a
    [replaceValue] without [$]: the first occurrence only. *)
Fixpoint isPrefix (p s : jstring) : bool :=
  match p, s with
  | [], _ => true
  | a :: p', b :: s' => (a =? b)%N && isPrefix p' s'
  | _ :: _, [] => false
  end.

Fixpoint String_replace (s searchValue replaceValue : jstring) : jstring :=
  if isPrefix searchValue s
  then replaceValue ++ skipn (length searchValue) s
  else
    match s with
    | [] => []
    | c :: s' => c :: String_replace s' searchValue replaceValue
    end.

(** [s.replace(re, replaceValue)] with a [g] pattern and a [replaceValue]
    without [$]: every match is replaced.  [i] is the position in the
    original string at which [s] starts. *)
Fixpoint splice (s : jstring) (i : nat) (ms : list MatchResult)
    (replaceValue : jstring) : jstring :=
  match ms with
  | [] => s
  | mr :: ms' =>
      firstn (index mr - i) s ++ replaceValue ++
      splice (skipn (endIndex mr - i) s) (endIndex mr) ms' replaceValue
  end.

Definition String_replace_all (s : jstring) (re : RegExp) (replaceValue : jstring)
    : jstring :=
  splice s 0 (matchAll (ignoreCase re) (source re) s 0) replaceValue.

(** [s.includes(u)]. *)
Fixpoint includes (s u : jstring) : bool :=
  isPrefix u s ||
  match s with
  | [] => false
  | _ :: s' => includes s' u
  end.

(** ** Abrupt completion *)

Inductive exn : Type := URIError.

Inductive completion (A : Type) : Type :=
| Normal (a : A)
| Throw (e : exn).

Arguments Normal {A} a.
Arguments Throw {A} e.

Definition bind {A B : Type} (c : completion A) (f : A -> completion B)
    : completion B :=
  match c with
  | Normal a => f a
  | Throw e => Throw e
  end.

Notation "x <- c ;; k" := (bind c (fun x => k))
  (at level 61, c at next level, right associativity).

(** A [for (const x of l) body] loop over the loop-carried value [acc]. *)
Fixpoint for_of {A S : Type} (l : list A) (body : A -> S -> completion S)
    (acc : S) : completion S :=
  match l with
  | [] => Normal acc
  | x :: l' => acc' <- body x acc ;; for_of l' body acc'
  end.

(** ** [encodeURIComponent] *)

Definition isLeadSurrogate (c : char) : bool := in_range 55296 56319 c.
Definition isTrailSurrogate (c : char) : bool := in_range 56320 57343 c.

(** The characters [encodeURIComponent] leaves alone: letters, digits and
    [- _ . ! ~ * ' ( )]. *)
Definition uriUnescaped (c : char) : bool :=
  isUpper c || isLower c || isDigit c ||
  existsb (N.eqb c) (js "-_.!~*'()").

Definition hexDigit (n : N) : char :=
  if (n <? 10)%N then (48 + n)%N else (55 + n)%N.

Definition percentEncode (octet : N) : jstring :=
  [chr "%"; hexDigit (octet / 16); hexDigit (octet mod 16)].

Definition utf8 (cp : N) : list N :=
  if (cp <? 128)%N then [cp]
  else if (cp <? 2048)%N then [192 + cp / 64; 128 + cp mod 64]%N
  else if (cp <? 65536)%N then
    [224 + cp / 4096; 128 + (cp / 64) mod 64; 128 + cp mod 64]%N
  else
    [240 + cp / 262144; 128 + (cp / 4096) mod 64; 128 + (cp / 64) mod 64;
     128 + cp mod 64]%N.

Definition codePoint (lead trail : char) : N :=
  ((lead - 55296) * 1024 + (trail - 56320) + 65536)%N.

Definition escapeCodePoint (cp : N) : jstring := flat_map percentEncode (utf8 cp).

(** Encode: an unpaired surrogate raises [URIError]. *)
Fixpoint encodeURIComponent (s : jstring) : completion jstring :=
  match s with
  | [] => Normal []
  | c :: s' =>
      if uriUnescaped c then
        r <- encodeURIComponent s' ;; Normal (c :: r)
      else if isLeadSurrogate c then
        match s' with
        | d :: s'' =>
            if isTrailSurrogate d then
              r <- encodeURIComponent s'' ;;
              Normal (escapeCodePoint (codePoint c d) ++ r)
            else Throw URIError
        | [] => Throw URIError
        end
      else if isTrailSurrogate c then Throw URIError
      else
        r <- encodeURIComponent s' ;; Normal (escapeCodePoint c ++ r)
  end.

(** ** [class AudioParser] *)

(** The keys of [this.platforms], in insertion order. *)
Inductive platform : Type :=
| soundcloud
| youtube
| spotify
| bandcamp
| directAudio.

Definition platform_keys : list platform :=
  [soundcloud; youtube; spotify; bandcamp; directAudio].

(** Position of a key in the table. *)
Definition rank (p : platform) : nat :=
  match p with
  | soundcloud => 0
  | youtube => 1
  | spotify => 2
  | bandcamp => 3
  | directAudio => 4
  end.

(** [[\w-]] and [[^\s]]. *)
Definition wordDash : cset := mkCset false [CWord; CChar (chr "-")].
Definition notSpace : cset := mkCset true [CSpace].

(** [(?:https?:\/\/)?] *)
Definition scheme : regex := Opt (seq [lit "http"; Opt (lit "s"); lit "://"]).

(** The [pattern] of each entry of the table; all five carry the flags [gi].
<<
  soundcloud:  /(?:https?:\/\/)?(?:www\.)?soundcloud\.com\/[\w-]+\/[\w-]+/gi
  youtube:     /(?:https?:\/\/)?(?:www\.)?(?:youtube\.com\/watch\?v=|youtu\.be\/)([\w-]+)/gi
  spotify:     /(?:https?:\/\/)?(?:open\.)?spotify\.com\/(track|album|playlist)\/([\w-]+)/gi
  bandcamp:    /(?:https?:\/\/)?[\w-]+\.bandcamp\.com\/(?:track|album)\/([\w-]+)/gi
  directAudio: /https?:\/\/[^\s]+\.(?:mp3|wav|ogg|m4a|flac)/gi
>> *)
Definition pattern_source (p : platform) : regex :=
  match p with
  | soundcloud =>
      seq [scheme; Opt (lit "www."); lit "soundcloud.com/"; Plus wordDash;
           lit "/"; Plus wordDash]
  | youtube =>
      seq [scheme; Opt (lit "www.");
           Alt (lit "youtube.com/watch?v=") (lit "youtu.be/");
           Grp 1 (Plus wordDash)]
  | spotify =>
      seq [scheme; Opt (lit "open."); lit "spotify.com/";
           Grp 1 (alts [lit "track"; lit "album"; lit "playlist"]);
           lit "/"; Grp 2 (Plus wordDash)]
  | bandcamp =>
      seq [scheme; Plus wordDash; lit ".bandcamp.com/";
           Alt (lit "track") (lit "album"); lit "/"; Grp 1 (Plus wordDash)]
  | directAudio =>
      seq [lit "http"; Opt (lit "s"); lit "://"; Plus notSpace; lit ".";
           alts [lit "mp3"; lit "wav"; lit "ogg"; lit "m4a"; lit "flac"]]
  end.

(** An [AudioParser] instance.  The table is built once by the constructor
    and its patterns and builders never change; what can change is the
    [lastIndex] of each of the five pattern objects. *)
Record AudioParser : Type := mkAudioParser {
  soundcloud_lastIndex : nat;
  youtube_lastIndex : nat;
  spotify_lastIndex : nat;
  bandcamp_lastIndex : nat;
  directAudio_lastIndex : nat
}.

(** [new AudioParser()]. *)
Definition AudioParser_new : AudioParser := mkAudioParser 0 0 0 0 0.

Definition lastIndexOf (this : AudioParser) (p : platform) : nat :=
  match p with
  | soundcloud => soundcloud_lastIndex this
  | youtube => youtube_lastIndex this
  | spotify => spotify_lastIndex this
  | bandcamp => bandcamp_lastIndex this
  | directAudio => directAudio_lastIndex this
  end.

Definition setLastIndexOf (p : platform) (n : nat) (this : AudioParser)
    : AudioParser :=
  match p with
  | soundcloud =>
      mkAudioParser n (youtube_lastIndex this) (spotify_lastIndex this)
        (bandcamp_lastIndex this) (directAudio_lastIndex this)
  | youtube =>
      mkAudioParser (soundcloud_lastIndex this) n (spotify_lastIndex this)
        (bandcamp_lastIndex this) (directAudio_lastIndex this)
  | spotify =>
      mkAudioParser (soundcloud_lastIndex this) (youtube_lastIndex this) n
        (bandcamp_lastIndex this) (directAudio_lastIndex this)
  | bandcamp =>
      mkAudioParser (soundcloud_lastIndex this) (youtube_lastIndex this)
        (spotify_lastIndex this) n (directAudio_lastIndex this)
  | directAudio =>
      mkAudioParser (soundcloud_lastIndex this) (youtube_lastIndex this)
        (spotify_lastIndex this) (bandcamp_lastIndex this) n
  end.

(** [this.platforms[p].pattern]. *)
Definition pattern (this : AudioParser) (p : platform) : RegExp :=
  mkRegExp (pattern_source p) true true (lastIndexOf this p).

(** ** The embed builders *)

Definition dquote : char := 34.
Definition newline : char := 10.

(** [q s] is [s] between double quotes. *)
Definition q (s : jstring) : jstring := dquote :: s ++ [dquote].

(** The lines of a template literal, joined by line feeds. *)
Fixpoint lines (l : list jstring) : jstring :=
  match l with
  | [] => []
  | [x] => x
  | x :: l' => x ++ newline :: lines l'
  end.

Definition soundcloud_template (encodedUrl : jstring) : jstring :=
  lines [
    js "";
    js "      <iframe ";
    js "        width=" ++ q (js "100%") ++ js " ";
    js "        height=" ++ q (js "166") ++ js " ";
    js "        scrolling=" ++ q (js "no") ++ js " ";
    js "        frameborder=" ++ q (js "no") ++ js " ";
    js "        allow=" ++ q (js "autoplay");
    js "        src=" ++
      q (js "https://w.soundcloud.com/player/?url=" ++ encodedUrl ++
         js "&color=%238b5cf6&auto_play=false&hide_related=true&show_comments=false&show_user=true&show_reposts=false&show_teaser=false")
      ++ js ">";
    js "      </iframe>";
    js "    "
  ].

Definition createSoundCloudEmbed (url : jstring) : completion jstring :=
  encodedUrl <- encodeURIComponent url ;;
  Normal (soundcloud_template encodedUrl).

Definition youtube_template (videoId : jstring) : jstring :=
  lines [
    js "";
    js "      <iframe ";
    js "        width=" ++ q (js "100%") ++ js " ";
    js "        height=" ++ q (js "315") ++ js " ";
    js "        src=" ++ q (js "https://www.youtube.com/embed/" ++ videoId)
      ++ js " ";
    js "        frameborder=" ++ q (js "0") ++ js " ";
    js "        allow=" ++
      q (js "accelerometer; autoplay; clipboard-write; encrypted-media; gyroscope; picture-in-picture")
      ++ js " ";
    js "        allowfullscreen>";
    js "      </iframe>";
    js "    "
  ].

(** The three patterns of [createYouTubeEmbed], in the order of the array;
    none has a flag.
<<
  /(?:youtube\.com\/watch\?v=)([\w-]+)/
  /(?:youtu\.be\/)([\w-]+)/
  /(?:youtube\.com\/embed\/)([\w-]+)/
>> *)
Definition youtube_id_pattern (shape : string) : RegExp :=
  literal (seq [lit shape; Grp 1 (Plus wordDash)]) false false.

Definition youtube_id_patterns : list RegExp :=
  [ youtube_id_pattern "youtube.com/watch?v=";
    youtube_id_pattern "youtu.be/";
    youtube_id_pattern "youtube.com/embed/" ].

(** A capture used as a string; a group that did not take part is
    [undefined], which the callers below only test for emptiness. *)
Definition orEmpty (o : option jstring) : jstring :=
  match o with Some v => v | None => [] end.

(** The loop [for (const pattern of patterns)] with its [break]: the first
    pattern that matches sets [videoId]. *)
Fixpoint extractVideoId (patterns : list RegExp) (url videoId : jstring) : jstring :=
  match patterns with
  | [] => videoId
  | pattern :: rest =>
      match String_match url pattern with
      | Some mt => orEmpty (group 1 mt)
      | None => extractVideoId rest url videoId
      end
  end.

Definition createYouTubeEmbed (url : jstring) : jstring :=
  let videoId := extractVideoId youtube_id_patterns url [] in
  match videoId with
  | [] => []
  | _ => youtube_template videoId
  end.

Definition spotify_template (type id height : jstring) : jstring :=
  lines [
    js "";
    js "      <iframe ";
    js "        style=" ++ q (js "border-radius:12px") ++ js " ";
    js "        src=" ++
      q (js "https://open.spotify.com/embed/" ++ type ++ js "/" ++ id ++
         js "?utm_source=generator") ++ js " ";
    js "        width=" ++ q (js "100%") ++ js " ";
    js "        height=" ++ q height ++ js " ";
    js "        frameBorder=" ++ q (js "0") ++ js " ";
    js "        allowfullscreen=" ++ q (js "") ++ js " ";
    js "        allow=" ++
      q (js "autoplay; clipboard-write; encrypted-media; fullscreen; picture-in-picture")
      ++ js " ";
    js "        loading=" ++ q (js "lazy") ++ js ">";
    js "      </iframe>";
    js "    "
  ].

(** [/spotify\.com\/(track|album|playlist)\/([\w-]+)/], without flags. *)
Definition spotify_embed_pattern : RegExp :=
  literal
    (seq [lit "spotify.com/";
          Grp 1 (alts [lit "track"; lit "album"; lit "playlist"]);
          lit "/"; Grp 2 (Plus wordDash)])
    false false.

(** [type === 'track' ? '152' : '380'] *)
Definition spotify_height (type : jstring) : jstring :=
  if text_eqb type (js "track") then js "152" else js "380".

Definition createSpotifyEmbed (url : jstring) : jstring :=
  match String_match url spotify_embed_pattern with
  | None => []
  | Some mt =>
      let type := orEmpty (group 1 mt) in
      let id := orEmpty (group 2 mt) in
      let height := spotify_height type in
      spotify_template type id height
  end.

(** The third line of the template starts, in the source file as it is, with
    the four characters U+00F0 U+0178 U+017D U+00B5. *)
Definition createBandcampEmbed (url : jstring) : jstring :=
  lines [
    js "";
    js "      <div class=" ++ q (js "audio-link") ++ js ">";
    js "        <a href=" ++ q url ++ js " target=" ++ q (js "_blank") ++
      js " rel=" ++ q (js "noopener noreferrer") ++ js ">";
    js "          " ++ [240; 376; 381; 181]%N ++ js " Escuchar en Bandcamp";
    js "        </a>";
    js "      </div>";
    js "    "
  ].

Definition createDirectAudioEmbed (url : jstring) : jstring :=
  lines [
    js "";
    js "      <audio controls style=" ++ q (js "width: 100%;") ++ js ">";
    js "        <source src=" ++ q url ++ js " type=" ++ q (js "audio/mpeg")
      ++ js ">";
    js "        Tu navegador no soporta el elemento de audio.";
    js "      </audio>";
    js "    "
  ].

(** [this.platforms[p].embed]. *)
Definition embed (p : platform) (url : jstring) : completion jstring :=
  match p with
  | soundcloud => createSoundCloudEmbed url
  | youtube => Normal (createYouTubeEmbed url)
  | spotify => Normal (createSpotifyEmbed url)
  | bandcamp => Normal (createBandcampEmbed url)
  | directAudio => Normal (createDirectAudioEmbed url)
  end.

(** ** The methods *)

(** An element of the array [parseText] returns. *)
Record AudioMatch : Type := mkAudioMatch {
  am_platform : platform;
  url : jstring;
  embedHtml : jstring
}.

(** [parseText(text)].  The outer loop runs over [Object.entries] of the
    table, the inner one over the [matchAll] iterator; [matchAll] reads the
    [lastIndex] of the pattern and writes none, so the instance is returned
    as it was. *)
Definition parseText (text : jstring) (this : AudioParser)
    : completion (list AudioMatch) * AudioParser :=
  (for_of platform_keys
     (fun platform detectedAudio =>
        let matches := String_matchAll text (pattern this platform) in
        for_of matches
          (fun mt detectedAudio =>
             html <- embed platform (matched mt) ;;
             Normal (detectedAudio ++
                     [mkAudioMatch platform (matched mt) html]))
          detectedAudio)
     [],
   this).

(** [hasAudioUrls(text)]: [test] on each pattern of the table in turn, which
    writes the [lastIndex] of every pattern it tries. *)
Fixpoint hasAudioUrls_loop (keys : list platform) (text : jstring)
    (this : AudioParser) : bool * AudioParser :=
  match keys with
  | [] => (false, this)
  | p :: keys' =>
      let (found, re) := RegExp_test (pattern this p) text in
      let this' := setLastIndexOf p (lastIndex re) this in
      if found then (true, this') else hasAudioUrls_loop keys' text this'
  end.

Definition hasAudioUrls (text : jstring) (this : AudioParser)
    : bool * AudioParser :=
  hasAudioUrls_loop platform_keys text this.

(** [getFirstAudio(text)]; [null] is [None]. *)
Definition getFirstAudio (text : jstring) (this : AudioParser)
    : completion (option AudioMatch) * AudioParser :=
  let (allAudio, this') := parseText text this in
  (allAudio <- allAudio ;;
   Normal (match allAudio with
           | a :: _ => Some a
           | [] => None
           end),
   this').

(** ** [MusicHub.formatPostText] *)

Definition maxLength : nat := 300.

Section FormatPostText.

(** [escapeHtml] goes through the DOM; it is left open. *)
Variable escapeHtml : jstring -> jstring.

(** The value of [formattedText] when [escapeHtml] is called. *)
Definition formattedText (text : jstring) (audioParser : AudioParser)
    : completion jstring * AudioParser :=
  let (audioUrls, audioParser') := parseText text audioParser in
  (audioUrls <- audioUrls ;;
   let formattedText :=
     fold_left (fun formattedText audio =>
                  String_replace formattedText (url audio) [])
               audioUrls text in
   let formattedText :=
     String_replace_all formattedText
       (literal (Chr newline) true false) (js "<br>") in
   let formattedText :=
     if Nat.ltb maxLength (length formattedText)
     then firstn maxLength formattedText ++ js "..."
     else formattedText in
   Normal formattedText,
   audioParser').

Definition formatPostText (text : jstring) (audioParser : AudioParser)
    : completion jstring * AudioParser :=
  match text with
  | [] => (Normal [], audioParser)
  | _ =>
      let (formatted, audioParser') := formattedText text audioParser in
      (formatted <- formatted ;; Normal (escapeHtml formatted),
       audioParser')
  end.

End FormatPostText.

(** ** Properties of patterns used in the statements *)

(** The group numbers of a pattern. *)
Fixpoint grp_names (r : regex) : list nat :=
  match r with
  | Eps | Chr _ | Cls _ | Plus _ => []
  | Cat r1 r2 | Alt r1 r2 => grp_names r1 ++ grp_names r2
  | Opt r1 => grp_names r1
  | Grp n r1 => n :: grp_names r1
  end.

(** Can the pattern match the empty string? *)
Fixpoint nullable (r : regex) : bool :=
  match r with
  | Eps | Opt _ => true
  | Chr _ | Cls _ | Plus _ => false
  | Cat r1 r2 => nullable r1 && nullable r2
  | Alt r1 r2 => nullable r1 || nullable r2
  | Grp _ r1 => nullable r1
  end.

(** Patterns that can only match ASCII characters. *)
Definition isASCII (c : char) : bool := (c <? 128)%N.

Definition cset_ascii (cs : cset) : bool :=
  negb (negated cs) &&
  forallb (fun it => match it with
                     | CChar a => isASCII a
                     | CWord => true
                     | CSpace => false
                     end) (members cs).

Fixpoint ascii_only (r : regex) : bool :=
  match r with
  | Eps => true
  | Chr a => isASCII a
  | Cls cs | Plus cs => cset_ascii cs
  | Cat r1 r2 | Alt r1 r2 => ascii_only r1 && ascii_only r2
  | Opt r1 | Grp _ r1 => ascii_only r1
  end.

(** [s.isWellFormed()]: no unpaired surrogate. *)
Fixpoint isWellFormed (s : jstring) : bool :=
  match s with
  | [] => true
  | c :: s' =>
      if isLeadSurrogate c then
        match s' with
        | d :: s'' => isTrailSurrogate d && isWellFormed s''
        | [] => false
        end
      else negb (isTrailSurrogate c) && isWellFormed s'
  end.

(** The number a string of decimal digits denotes. *)
Definition parseDecimal (s : jstring) : N :=
  fold_left (fun n c => (10 * n + (c - 48))%N) s 0%N.

(** The matches of the pattern of [p] in [text], from position 0. *)
Definition occurrences (text : jstring) (p : platform) : list MatchResult :=
  matchAll true (pattern_source p) text 0.

(** [a] lies wholly before [b] in the input. *)
Definition before (a b : MatchResult) : Prop :=
  endIndex a <= index b /\ index a < index b.

(** [a] is the element [parseText] pushes for the match [snd pm] of the
    platform [fst pm]. *)
Definition reports (a : AudioMatch) (pm : platform * MatchResult) : Prop :=
  am_platform a = fst pm /\ url a = matched (snd pm) /\
  embed (fst pm) (matched (snd pm)) = Normal (embedHtml a).

(** The body of the inner loop of [parseText]. *)
Definition push_match (platform : platform) (mt : MatchResult)
    (detectedAudio : list AudioMatch) : completion (list AudioMatch) :=
  html <- embed platform (matched mt) ;;
  Normal (detectedAudio ++ [mkAudioMatch platform (matched mt) html]).

(** [a] comes from a platform registered no later than that of [b]. *)
Definition table_order (a b : AudioMatch) : Prop :=
  rank (am_platform a) <= rank (am_platform b).

(** The pattern matches at no position of [s]. *)
Definition matches_nowhere (ic : bool) (r : regex) (s : jstring) : bool :=
  forallb (fun j => match run ic r (skipn j s) with
                    | None => true
                    | Some _ => false
                    end)
          (List.seq 0 (S (length s))).

(** *** Dots in the text

    Every pattern of the table needs a dot: after [soundcloud], [spotify],
    [bandcamp] or [youtu], or before [com/watch] or a file extension.
    [audio_dot x v] recognizes such a dot from the character [x] before it
    and the text [v] after it, by the last letter before the dot (D, Y, P,
    U), the first letter after it (M, W, O, F) or the run [com/w] after it,
    in either case. *)
Definition dot : char := 46.

Definition no_dot (s : jstring) : bool :=
  forallb (fun c => negb (c =? dot)%N) s.

Fixpoint starts_ci (p v : jstring) : bool :=
  match p, v with
  | [], _ => true
  | a :: p', b :: v' => (toUpper a =? toUpper b)%N && starts_ci p' v'
  | _ :: _, [] => false
  end.

Definition audio_dot (x : char) (v : jstring) : bool :=
  existsb (fun a => (toUpper a =? toUpper x)%N) (js "DYPU") ||
  existsb (fun p => starts_ci p v) [js "M"; js "W"; js "O"; js "F"; js "COM/W"].

Fixpoint has_audio_dot (s : jstring) : bool :=
  match s with
  | [] => false
  | x :: s' =>
      match s' with
      | d :: v => ((d =? dot)%N && audio_dot x v) || has_audio_dot s'
      | [] => false
      end
  end.

(** The URL shapes of the third pattern of [createYouTubeEmbed]. *)
Definition youtube_embed_url (scheme www id : jstring) : jstring :=
  scheme ++ www ++ js "youtube.com/embed/" ++ id.

(** ** More of the code *)

(** *** Matches in a state with a [lastIndex] *)

(** A match found in the text from position [n] on, seen from the whole
    text. *)
Definition shift (n : nat) (mr : MatchResult) : MatchResult :=
  mkMatch (n + index mr) (matched mr) (groups mr).

(** The patterns whose last piece is [cs+], possibly inside a group. *)
Inductive EndsInPlus (cs : cset) : regex -> Prop :=
| EndsPlus : EndsInPlus cs (Plus cs)
| EndsGrp (n : nat) (r : regex) : EndsInPlus cs r -> EndsInPlus cs (Grp n r)
| EndsCat (r1 r2 : regex) : EndsInPlus cs r2 -> EndsInPlus cs (Cat r1 r2).

(** The rest of the input does not begin with a character of [cs]. *)
Definition stops_at (ic : bool) (cs : cset) (s' : jstring) : Prop :=
  match s' with
  | [] => True
  | ch :: _ => cset_has ic cs ch = false
  end.

(** Every character a pattern can match satisfies [P]. *)
Fixpoint chars_ok (ic : bool) (P : char -> bool) (r : regex) : Prop :=
  match r with
  | Eps => True
  | Chr a => forall ch, Canonicalize ic a = Canonicalize ic ch -> P ch = true
  | Cls cs | Plus cs => forall ch, cset_has ic cs ch = true -> P ch = true
  | Cat r1 r2 | Alt r1 r2 => chars_ok ic P r1 /\ chars_ok ic P r2
  | Opt r1 | Grp _ r1 => chars_ok ic P r1
  end.

(** Letters, digits and [_ - . / : ? =]: the characters of the URLs of the
    first four platforms. *)
Definition url_safe (c : char) : bool :=
  isWordChar c || existsb (N.eqb c) (js "-./:?=").

(** What [encodeURIComponent] can write: the characters it leaves alone and
    the percent sign (the hexadecimal digits it writes are among the
    former). *)
Definition uri_out (c : char) : bool := uriUnescaped c || (c =? chr "%")%N.

(** A code unit has 16 bits. *)
Definition isCodeUnit (c : char) : bool := (c <? 65536)%N.

(** *** [GitHubAPI.getTimeAgo] *)













(** *** [MusicHub.handleSearch] *)

(** The fields of a formatted discussion that the search reads. *)
Record Discussion : Type := mkDiscussion {
  d_title : jstring;
  d_body : jstring;
  d_username : jstring
}.

Fixpoint trimStart (s : jstring) : jstring :=
  match s with
  | [] => []
  | c :: s' => if isWhiteSpace c then trimStart s' else s
  end.

(** [s.trim()]: white space and line terminators off both ends. *)
Definition trim (s : jstring) : jstring := rev (trimStart (rev (trimStart s))).

Section Search.

(** [String.prototype.toLowerCase] follows the Unicode case tables; it is
    left open. *)
Variable toLowerCase : jstring -> jstring.

Definition searchText (d : Discussion) : jstring :=
  toLowerCase (d_title d ++ js " " ++ d_body d ++ js " " ++ d_username d).

(** [handleSearch(query)]: the list handed to [renderDiscussions]. *)
Definition handleSearch (discussions : list Discussion) (query : jstring)
    : list Discussion :=
  match trim query with
  | [] => discussions
  | _ =>
      filter (fun d => includes (searchText d) (toLowerCase query)) discussions
  end.

End Search.

(** *** [MusicHub.startAutoRefresh] and [MusicHub.stopAutoRefresh] *)

(** The interval timers of the page: the handles of the running ones and
    the next handle.  A handle is a positive integer and is not given
    twice. *)
Record Timers : Type := mkTimers {
  running : list positive;
  nextHandle : positive
}.

Definition setInterval (t : Timers) : positive * Timers :=
  (nextHandle t, mkTimers (nextHandle t :: running t) (Pos.succ (nextHandle t))).

Definition clearInterval (h : positive) (t : Timers) : Timers :=
  mkTimers (remove Pos.eq_dec h (running t)) (nextHandle t).

(** The field [autoRefreshTimer] ([null] is [None]) and the timers. *)
Definition RefreshState : Type := (option positive * Timers)%type.

Definition startAutoRefresh (st : RefreshState) : RefreshState :=
  let (autoRefreshTimer, t) := st in
  let t :=
    match autoRefreshTimer with
    | Some h => clearInterval h t
    | None => t
    end in
  let (h, t) := setInterval t in
  (Some h, t).

Definition stopAutoRefresh (st : RefreshState) : RefreshState :=
  let (autoRefreshTimer, t) := st in
  match autoRefreshTimer with
  | Some h => (None, clearInterval h t)
  | None => (None, t)
  end.

Inductive RefreshCall : Type := CallStart | CallStop.

Definition refreshCall (c : RefreshCall) (st : RefreshState) : RefreshState :=
  match c with
  | CallStart => startAutoRefresh st
  | CallStop => stopAutoRefresh st
  end.

(** What the timers of the page are while the application has started and
    stopped its refresh: those that ran before, and the one whose handle
    the application holds. *)
Definition refresh_inv (t0 : Timers) (st : RefreshState) : Prop :=
  let (timer, t) := st in
  (nextHandle t0 <= nextHandle t)%positive /\
  match timer with
  | Some h =>
      running t = h :: running t0 /\
      (nextHandle t0 <= h < nextHandle t)%positive
  | None => running t = running t0
  end.

(** ** The matcher and the strings of a pattern *)

Section MatcherFacts.

Variable ic : bool.

Lemma plus_m_sound (R : Type) (cs : cset) (s : jstring)
    (k : jstring -> option R) (x : R) :
  plus_m ic cs s k = Some x ->
  exists w s', s = w ++ s' /\ w <> [] /\
    Forall (fun ch => cset_has ic cs ch = true) w /\ k s' = Some x.
Proof.
  induction s as [|ch s IH]; simpl; [discriminate|].
  destruct (cset_has ic cs ch) eqn:Hch; [|discriminate].
  destruct (plus_m ic cs s k) as [y|] eqn:Hrec; simpl; intros H.
  - injection H as ->.
    destruct (IH eq_refl) as (w & s' & -> & _ & Hall & Hk).
    exists (ch :: w), s'. repeat split; auto. discriminate.
  - exists [ch], s. repeat split; auto. discriminate.
Qed.

(** Soundness: a successful match splits the input into a string of the
    pattern and a rest, and the continuation succeeds on the rest with the
    captures of the pattern's groups added. *)
Lemma m_sound (R : Type) (r : regex) :
  forall (s : jstring) (c : caps) (k : jstring -> caps -> option R) (x : R),
    m ic r s c k = Some x ->
    exists w s' d, s = w ++ s' /\ lang ic r w /\ k s' (d ++ c) = Some x /\
      (forall n v, In (n, v) d -> In n (grp_names r)).
Proof.
  induction r as [|a|cs|r1 IH1 r2 IH2|r1 IH1 r2 IH2|r1 IH1|cs|n r1 IH1];
    intros s c k x H; simpl in H.
  - exists [], s, []. simpl. repeat split; auto; try (now intros ? ? []).
  - destruct s as [|ch s]; [discriminate|].
    destruct (N.eqb_spec (Canonicalize ic a) (Canonicalize ic ch)) as [E|];
      [|discriminate].
    exists [ch], s, []. simpl. repeat split; eauto; try (now intros ? ? []).
  - destruct s as [|ch s]; [discriminate|].
    destruct (cset_has ic cs ch) eqn:E; [|discriminate].
    exists [ch], s, []. simpl. repeat split; eauto; try (now intros ? ? []).
  - apply IH1 in H. destruct H as (w1 & s1 & d1 & -> & L1 & H & G1).
    apply IH2 in H. destruct H as (w2 & s2 & d2 & -> & L2 & H & G2).
    exists (w1 ++ w2), s2, (d2 ++ d1). rewrite <- !app_assoc.
    repeat split; auto.
    + simpl. eauto.
    + intros n v Hin. simpl. apply in_app_iff.
      apply in_app_iff in Hin. destruct Hin; eauto.
  - unfold orelse in H. destruct (m ic r1 s c k) as [y|] eqn:E.
    + injection H as ->. apply IH1 in E.
      destruct E as (w & s' & d & -> & L & Hk & G).
      exists w, s', d. simpl. repeat split; auto.
      intros n v Hin. apply in_app_iff. eauto.
    + apply IH2 in H. destruct H as (w & s' & d & -> & L & Hk & G).
      exists w, s', d. simpl. repeat split; auto.
      intros n v Hin. apply in_app_iff. eauto.
  - unfold orelse in H. destruct (m ic r1 s c k) as [y|] eqn:E.
    + injection H as ->. apply IH1 in E.
      destruct E as (w & s' & d & -> & L & Hk & G).
      exists w, s', d. simpl. repeat split; auto.
    + exists [], s, []. simpl. repeat split; auto; try (now intros ? ? []).
  - apply plus_m_sound in H. destruct H as (w & s' & -> & Hne & Hall & Hk).
    exists w, s', []. simpl. repeat split; auto; try (now intros ? ? []).
  - apply IH1 in H. destruct H as (w & s' & d & -> & L & Hk & G).
    exists w, s', ((n, w) :: d). simpl. repeat split; auto.
    + rewrite length_app, Nat.add_sub in Hk.
      rewrite firstn_app, Nat.sub_diag, firstn_all in Hk. simpl in Hk.
      now rewrite app_nil_r in Hk.
    + intros n' v [E|Hin]; [injection E as -> _; now left|right; eauto].
Qed.

Lemma plus_m_complete (R : Type) (cs : cset) (w s' : jstring)
    (k : jstring -> option R) :
  w <> [] -> Forall (fun ch => cset_has ic cs ch = true) w ->
  k s' <> None -> plus_m ic cs (w ++ s') k <> None.
Proof.
  induction w as [|ch w IH]; intros Hne Hall Hk; [congruence|].
  inversion Hall as [|? ? Hch Hall']; subst. simpl. rewrite Hch.
  destruct w as [|ch' w].
  - simpl. destruct (plus_m ic cs s' k); simpl; [discriminate|exact Hk].
  - assert (Hrec : plus_m ic cs ((ch' :: w) ++ s') k <> None)
      by (apply IH; auto; discriminate).
    destruct (plus_m ic cs ((ch' :: w) ++ s') k); simpl;
      [discriminate|congruence].
Qed.

(** Completeness: where a string of the pattern stands at the front of the
    input and the continuation accepts the rest, the match succeeds. *)
Lemma m_complete (R : Type) (r : regex) :
  forall (w s' : jstring) (c : caps) (k : jstring -> caps -> option R),
    lang ic r w -> (forall c', k s' c' <> None) ->
    m ic r (w ++ s') c k <> None.
Proof.
  induction r as [|a|cs|r1 IH1 r2 IH2|r1 IH1 r2 IH2|r1 IH1|cs|n r1 IH1];
    intros w s' c k L Hk; simpl in L; simpl.
  - subst. apply Hk.
  - destruct L as (ch & -> & E). simpl. rewrite E, N.eqb_refl. apply Hk.
  - destruct L as (ch & -> & E). simpl. rewrite E. apply Hk.
  - destruct L as (w1 & w2 & -> & L1 & L2). rewrite <- app_assoc.
    apply IH1; auto.
  - unfold orelse. destruct L as [L|L].
    + specialize (IH1 w s' c k L Hk).
      destruct (m ic r1 (w ++ s') c k); [discriminate|congruence].
    + destruct (m ic r1 (w ++ s') c k); [discriminate|]. apply IH2; auto.
  - unfold orelse. destruct L as [->|L].
    + simpl. destruct (m ic r1 s' c k); [discriminate|apply Hk].
    + specialize (IH1 w s' c k L Hk).
      destruct (m ic r1 (w ++ s') c k); [discriminate|congruence].
  - destruct L as [Hne Hall]. apply plus_m_complete; auto.
  - apply IH1; auto.
Qed.

Lemma run_sound (r : regex) (s : jstring) (n : nat) (c : caps) :
  run ic r s = Some (n, c) ->
  exists w s', s = w ++ s' /\ n = length w /\ lang ic r w /\
    (forall k v, In (k, v) c -> In k (grp_names r)).
Proof.
  unfold run. intros H. apply m_sound in H.
  destruct H as (w & s' & d & -> & L & H & G).
  injection H as <- <-. exists w, s'.
  rewrite length_app, Nat.add_sub, app_nil_r. auto.
Qed.

Lemma run_complete (r : regex) (w s' : jstring) :
  lang ic r w -> run ic r (w ++ s') <> None.
Proof.
  intros L. unfold run. apply m_complete; auto. discriminate.
Qed.

Lemma matches_exactly_lang (r : regex) (w : jstring) :
  matches_exactly ic r w = true <-> lang ic r w.
Proof.
  unfold matches_exactly. split.
  - destruct (m ic r w [] _) eqn:E; [|discriminate]. intros _.
    apply m_sound in E. destruct E as (w' & s' & d & -> & L & H & _).
    destruct s'; [|discriminate]. now rewrite app_nil_r.
  - intros L.
    pose proof (@m_complete unit r w [] []
                  (fun s' _ => match s' with [] => Some tt | _ => None end) L)
      as H.
    rewrite app_nil_r in H.
    destruct (m ic r w [] _); [reflexivity|].
    exfalso. apply H; [discriminate|reflexivity].
Qed.

Lemma lang_nullable (r : regex) : lang ic r [] -> nullable r = true.
Proof.
  induction r; simpl; auto.
  - intros (ch & H & _). discriminate.
  - intros (ch & H & _). discriminate.
  - intros (w1 & w2 & H & L1 & L2). symmetry in H.
    apply app_eq_nil in H. destruct H as [-> ->].
    rewrite IHr1, IHr2; auto.
  - intros [L|L]; [rewrite IHr1|rewrite IHr2]; auto using orb_true_r.
  - intros [H _]. congruence.
Qed.

End MatcherFacts.

(** ** The search loop and the match iterator *)

Section ExecFacts.

Variable ic : bool.
Variable r : regex.

Lemma match_at_spec (i : nat) (s : jstring) (mr : MatchResult) :
  match_at ic r i s = Some mr ->
  index mr = i /\ lang ic r (matched mr) /\
  (exists s', s = matched mr ++ s') /\
  run ic r s = Some (length (matched mr), groups mr).
Proof.
  unfold match_at. destruct (run ic r s) as [[n c]|] eqn:E; [|discriminate].
  intros H. injection H as <-. simpl.
  apply run_sound in E. destruct E as (w & s' & -> & -> & L & _).
  rewrite firstn_app, Nat.sub_diag, firstn_all. simpl. rewrite app_nil_r.
  repeat split; eauto.
Qed.

Lemma match_at_None (i : nat) (s : jstring) :
  match_at ic r i s = None <-> run ic r s = None.
Proof.
  unfold match_at. destruct (run ic r s) as [[n c]|]; split; congruence.
Qed.

(** The search loop returns what the iterator yields first. *)
Lemma exec_from_hd (s : jstring) :
  forall i skip, exec_from ic r s i skip = hd_error (matchAll_from ic r s i skip).
Proof.
  induction s as [|ch s IH]; intros i [|k]; simpl; auto.
  - destruct (match_at ic r i []); reflexivity.
  - destruct (match_at ic r i (ch :: s)); auto.
Qed.

(** Every match the iterator yields is a match of the pattern at its
    index, at or after the starting position. *)
Lemma matchAll_from_In (s : jstring) :
  forall i skip mr, In mr (matchAll_from ic r s i skip) ->
    exists j, index mr = i + j /\ skip <= j /\ j <= length s /\
      match_at ic r (i + j) (skipn j s) = Some mr.
Proof.
  induction s as [|ch s IH]; intros i [|k] mr; simpl.
  - destruct (match_at ic r i []) as [m0|] eqn:E; [|intros []].
    intros [<-|[]]. exists 0. rewrite Nat.add_0_r.
    apply match_at_spec in E as E'. intuition.
  - intros [].
  - destruct (match_at ic r i (ch :: s)) as [m0|] eqn:E.
    + intros [<-|Hin].
      * exists 0. rewrite Nat.add_0_r. apply match_at_spec in E as E'.
        simpl. intuition lia.
      * apply IH in Hin. destruct Hin as (j & Hi & _ & Hj & Hm).
        exists (S j). rewrite <- Nat.add_succ_comm. simpl.
        intuition lia.
    + intros Hin. apply IH in Hin. destruct Hin as (j & Hi & _ & Hj & Hm).
      exists (S j). rewrite <- Nat.add_succ_comm. simpl. intuition lia.
  - intros Hin. apply IH in Hin. destruct Hin as (j & Hi & Hk & Hj & Hm).
    exists (S j). rewrite <- Nat.add_succ_comm. simpl. intuition lia.
Qed.

(** The matches come in the order of the input and do not overlap. *)
Lemma matchAll_from_sorted (s : jstring) :
  forall i skip, StronglySorted before (matchAll_from ic r s i skip).
Proof.
  induction s as [|ch s IH]; intros i [|k]; simpl.
  - destruct (match_at ic r i []); repeat constructor.
  - constructor.
  - destruct (match_at ic r i (ch :: s)) as [m0|] eqn:E; [|apply IH].
    constructor; [apply IH|].
    apply Forall_forall. intros mr Hin. apply matchAll_from_In in Hin.
    destruct Hin as (j & Hi & Hk & _).
    apply match_at_spec in E. destruct E as (E & _).
    unfold before, endIndex. lia.
  - apply IH.
Qed.

(** A position at or after the start where the pattern matches is the
    index of a match or lies inside one. *)
Lemma matchAll_from_covers (s : jstring) :
  forall i skip j, skip <= j -> j <= length s ->
    run ic r (skipn j s) <> None ->
    exists mr, In mr (matchAll_from ic r s i skip) /\
      index mr <= i + j /\ (i + j < endIndex mr \/ index mr = i + j).
Proof.
  induction s as [|ch s IH]; intros i skip j Hs Hj Hrun.
  - simpl in Hj. assert (j = 0) by lia. subst. assert (skip = 0) by lia.
    subst. simpl in *.
    destruct (match_at ic r i []) as [m0|] eqn:E.
    + exists m0. apply match_at_spec in E. simpl. intuition lia.
    + apply match_at_None in E. contradiction.
  - destruct skip as [|k]; simpl.
    + destruct (match_at ic r i (ch :: s)) as [m0|] eqn:E.
      * apply match_at_spec in E as E'. destruct E' as (Hi & _).
        destruct (Nat.ltb_spec j (Nat.max 1 (length (matched m0))))
          as [Hlt|Hge].
        -- exists m0. split; [now left|]. unfold endIndex.
           destruct j; [intuition lia|]. intuition lia.
        -- destruct j as [|j]; [lia|]. simpl in Hj, Hrun.
           destruct (IH (S i) (pred (length (matched m0))) j)
             as (mr & Hin & Hb); [lia|lia|assumption|].
           exists mr. split; [now right|]. intuition lia.
      * destruct j as [|j].
        -- apply match_at_None in E. contradiction.
        -- simpl in Hj, Hrun.
           destruct (IH (S i) 0 j) as (mr & Hin & Hb);
             [lia|lia|assumption|].
           exists mr. intuition lia.
    + destruct j as [|j]; [lia|]. simpl in Hj, Hrun.
      destruct (IH (S i) k j) as (mr & Hin & Hb); [lia|lia|assumption|].
      exists mr. intuition lia.
Qed.

(** Where the pattern matches nowhere, the iterator yields nothing,
    whatever the starting position. *)
Lemma matchAll_from_nil (s : jstring) (i skip : nat) :
  (forall j, j <= length s -> run ic r (skipn j s) = None) ->
  matchAll_from ic r s i skip = [].
Proof.
  intros H. destruct (matchAll_from ic r s i skip) as [|mr l] eqn:E; auto.
  assert (Hin : In mr (matchAll_from ic r s i skip)) by (rewrite E; now left).
  apply matchAll_from_In in Hin. destruct Hin as (j & _ & _ & Hj & Hm).
  apply match_at_spec in Hm. destruct Hm as (_ & _ & _ & Hrun).
  rewrite H in Hrun; [discriminate|assumption].
Qed.

End ExecFacts.

(** ** Characters of a match *)

Ltac case_ranges :=
  unfold isASCII, isWordChar, isUpper, isLower, isDigit, isLeadSurrogate,
    isTrailSurrogate, in_range in *;
  repeat match goal with
    | |- context [(?a <=? ?b)%N] => destruct (N.leb_spec a b)
    | |- context [(?a <? ?b)%N] => destruct (N.ltb_spec a b)
    | |- context [(?a =? ?b)%N] => destruct (N.eqb_spec a b)
    | H : context [(?a <=? ?b)%N] |- _ => destruct (N.leb_spec a b)
    | H : context [(?a <? ?b)%N] |- _ => destruct (N.ltb_spec a b)
    | H : context [(?a =? ?b)%N] |- _ => destruct (N.eqb_spec a b)
    end;
  simpl in *; try discriminate; try reflexivity; try lia.

Lemma Canonicalize_ascii (ic : bool) (a ch : char) :
  isASCII a = true -> Canonicalize ic a = Canonicalize ic ch ->
  isASCII ch = true.
Proof.
  unfold Canonicalize, toUpper. destruct ic; intros Ha E; [|congruence].
  revert Ha E. case_ranges.
Qed.

Lemma isWordChar_ascii (ch : char) : isWordChar ch = true -> isASCII ch = true.
Proof. case_ranges. Qed.

Lemma cset_ascii_has (ic : bool) (cs : cset) (ch : char) :
  cset_ascii cs = true -> cset_has ic cs ch = true -> isASCII ch = true.
Proof.
  unfold cset_ascii, cset_has. destruct (negated cs); [discriminate|].
  simpl. intros Hall Hex. apply existsb_exists in Hex.
  destruct Hex as (it & Hin & Hit).
  rewrite forallb_forall in Hall. specialize (Hall it Hin).
  destruct it as [a| |]; simpl in Hit; [|now apply isWordChar_ascii|discriminate].
  apply N.eqb_eq in Hit. eapply Canonicalize_ascii; eauto.
Qed.

(** A pattern built from ASCII characters and [\w] only matches ASCII. *)
Lemma ascii_only_lang (ic : bool) (r : regex) :
  ascii_only r = true ->
  forall w, lang ic r w -> Forall (fun ch => isASCII ch = true) w.
Proof.
  induction r as [|a|cs|r1 IH1 r2 IH2|r1 IH1 r2 IH2|r1 IH1|cs|n r1 IH1];
    cbn [ascii_only lang]; intros Hr w L.
  - subst. constructor.
  - destruct L as (ch & -> & E). repeat constructor.
    eapply Canonicalize_ascii; eauto.
  - destruct L as (ch & -> & E). repeat constructor.
    eapply cset_ascii_has; eauto.
  - apply andb_true_iff in Hr. destruct Hr.
    destruct L as (w1 & w2 & -> & L1 & L2). apply Forall_app. auto.
  - apply andb_true_iff in Hr. destruct Hr. destruct L; auto.
  - destruct L as [->|L]; auto.
  - destruct L as [_ Hall]. eapply Forall_impl; [|exact Hall].
    intros ch Hch. exact (cset_ascii_has _ _ _ Hr Hch).
  - auto.
Qed.

(** ** [encodeURIComponent] raises exactly on ill-formed strings *)

Lemma jstring_pair_ind (P : jstring -> Prop) :
  P [] -> (forall c, P [c]) ->
  (forall c d s, P s -> P (d :: s) -> P (c :: d :: s)) ->
  forall s, P s.
Proof.
  intros H0 H1 H2 s.
  assert (H : P s /\ forall c, P (c :: s)).
  { induction s as [|d s [IH1 IH2]]; split; auto. }
  apply H.
Qed.

Lemma isASCII_not_surrogate (c : char) :
  isASCII c = true ->
  isLeadSurrogate c = false /\ isTrailSurrogate c = false.
Proof. case_ranges; split; reflexivity. Qed.

Lemma uriUnescaped_ascii (c : char) : uriUnescaped c = true -> isASCII c = true.
Proof.
  unfold uriUnescaped. intros H.
  apply orb_true_iff in H. destruct H as [H|H]; [revert H; case_ranges|].
  apply existsb_exists in H. destruct H as (x & Hin & E).
  apply N.eqb_eq in E. subst x.
  assert (Hall : Forall (fun x => isASCII x = true) (js "-_.!~*'()"))
    by (vm_compute; repeat constructor).
  rewrite Forall_forall in Hall. auto.
Qed.

Lemma uriUnescaped_not_surrogate (c : char) :
  uriUnescaped c = true ->
  isLeadSurrogate c = false /\ isTrailSurrogate c = false.
Proof.
  intros H. now apply isASCII_not_surrogate, uriUnescaped_ascii.
Qed.

Lemma bind_Normal (A B : Type) (c : completion A) (f : A -> B) :
  (exists a, c = Normal a) ->
  exists b, (x <- c ;; Normal (f x)) = Normal b.
Proof. intros (a & ->). simpl. eauto. Qed.

Lemma encodeURIComponent_spec (s : jstring) :
  if isWellFormed s
  then exists r, encodeURIComponent s = Normal r
  else encodeURIComponent s = Throw URIError.
Proof.
  induction s as [|c|c d s IH1 IH2] using jstring_pair_ind.
  - simpl. eauto.
  - cbn [isWellFormed encodeURIComponent].
    destruct (uriUnescaped c) eqn:U.
    + apply uriUnescaped_not_surrogate in U. destruct U as [-> ->].
      simpl. eauto.
    + destruct (isLeadSurrogate c); [reflexivity|].
      destruct (isTrailSurrogate c); simpl; eauto.
  - cbn [isWellFormed encodeURIComponent] in *.
    destruct (uriUnescaped c) eqn:U.
    + apply uriUnescaped_not_surrogate in U. destruct U as [-> ->].
      cbn [negb andb].
      destruct (if isLeadSurrogate d then _ else _).
      * now apply bind_Normal.
      * rewrite IH2. reflexivity.
    + destruct (isLeadSurrogate c).
      * destruct (isTrailSurrogate d); [|reflexivity]. cbn [andb].
        destruct (isWellFormed s).
        -- now apply bind_Normal.
        -- rewrite IH1. reflexivity.
      * destruct (isTrailSurrogate c); [reflexivity|]. cbn [negb andb].
        destruct (if isLeadSurrogate d then _ else _).
        -- now apply bind_Normal.
        -- rewrite IH2. reflexivity.
Qed.

Lemma isWellFormed_ascii (s : jstring) :
  Forall (fun ch => isASCII ch = true) s -> isWellFormed s = true.
Proof.
  induction 1 as [|c s Hc _ IH]; [reflexivity|].
  cbn [isWellFormed].
  destruct (isASCII_not_surrogate c Hc) as [-> ->]. exact IH.
Qed.

(** ** [parseText] *)

Lemma pattern_not_nullable (p : platform) : nullable (pattern_source p) = false.
Proof. destruct p; reflexivity. Qed.

(** A match of a pattern of the table is not empty. *)
Lemma pattern_lang_nonempty (ic : bool) (p : platform) (w : jstring) :
  lang ic (pattern_source p) w -> w <> [].
Proof.
  intros L ->. apply lang_nullable in L.
  rewrite pattern_not_nullable in L. discriminate.
Qed.

(** On a string the pattern of its platform matches, the builder of the
    platform returns normally. *)
Lemma embed_Normal_on_match (ic : bool) (p : platform) (w : jstring) :
  lang ic (pattern_source p) w -> exists html, embed p w = Normal html.
Proof.
  destruct p; simpl embed; eauto.
  intros L. unfold createSoundCloudEmbed.
  apply (@bind_Normal _ _ (encodeURIComponent w) soundcloud_template).
  apply ascii_only_lang in L; [|reflexivity].
  apply isWellFormed_ascii in L.
  pose proof (encodeURIComponent_spec w) as H. now rewrite L in H.
Qed.

Section ParseTextFacts.

Variable text : jstring.
Variable this : AudioParser.

Lemma inner_loop (p : platform) (ms : list MatchResult) :
  (forall mr, In mr ms -> exists html, embed p (matched mr) = Normal html) ->
  forall acc, exists l,
    for_of ms (push_match p) acc = Normal (acc ++ l) /\
    Forall2 reports l (map (pair p) ms).
Proof.
  induction ms as [|mr ms IH]; intros Hok acc; simpl.
  - exists []. rewrite app_nil_r. split; [reflexivity|constructor].
  - destruct (Hok mr (or_introl eq_refl)) as (html & Hhtml).
    unfold push_match at 1. rewrite Hhtml. simpl.
    destruct (IH (fun m H => Hok m (or_intror H))
                (acc ++ [mkAudioMatch p (matched mr) html])) as (l & E & F).
    exists (mkAudioMatch p (matched mr) html :: l).
    rewrite E, <- app_assoc. split; [reflexivity|].
    constructor; [|exact F]. repeat split; assumption.
Qed.

Lemma matches_embed_Normal (p : platform) (mr : MatchResult) :
  In mr (String_matchAll text (pattern this p)) ->
  exists html, embed p (matched mr) = Normal html.
Proof.
  unfold String_matchAll, matchAll. simpl. intros Hin.
  apply matchAll_from_In in Hin. destruct Hin as (j & _ & _ & _ & Hm).
  apply match_at_spec in Hm. destruct Hm as (_ & L & _).
  eapply embed_Normal_on_match; eauto.
Qed.

Lemma outer_loop (keys : list platform) :
  forall acc, exists l,
    for_of keys
      (fun platform detectedAudio =>
         for_of (String_matchAll text (pattern this platform))
           (push_match platform) detectedAudio) acc
    = Normal (acc ++ l) /\
    Forall2 reports l
      (flat_map (fun p => map (pair p) (String_matchAll text (pattern this p)))
         keys).
Proof.
  induction keys as [|p keys IH]; intros acc; simpl.
  - exists []. rewrite app_nil_r. split; [reflexivity|constructor].
  - destruct (inner_loop p (String_matchAll text (pattern this p))
                (matches_embed_Normal p) acc) as (l1 & E1 & F1).
    rewrite E1. simpl. destruct (IH (acc ++ l1)) as (l2 & E2 & F2).
    exists (l1 ++ l2). rewrite E2, <- app_assoc. split; [reflexivity|].
    apply Forall2_app; assumption.
Qed.

(** [parseText] returns normally, leaves the instance as it is, and its
    result lists, platform after platform in the order of the table, one
    element per match the iterator of that platform yields. *)
Lemma parseText_spec :
  exists l, parseText text this = (Normal l, this) /\
    Forall2 reports l
      (flat_map (fun p => map (pair p) (String_matchAll text (pattern this p)))
         platform_keys).
Proof.
  destruct (outer_loop platform_keys []) as (l & E & F).
  exists l. split; [|exact F]. unfold parseText.
  change (fun (platform : platform) (detectedAudio : list AudioMatch) =>
            for_of (String_matchAll text (pattern this platform))
              (fun mt detectedAudio0 =>
                 html <- embed platform (matched mt) ;;
                 Normal (detectedAudio0 ++
                         [mkAudioMatch platform (matched mt) html]))
              detectedAudio)
    with (fun platform detectedAudio =>
            for_of (String_matchAll text (pattern this platform))
              (push_match platform) detectedAudio).
  rewrite E. reflexivity.
Qed.

End ParseTextFacts.

Lemma matchAll_new (text : jstring) (p : platform) :
  String_matchAll text (pattern AudioParser_new p) = occurrences text p.
Proof. destruct p; reflexivity. Qed.

Lemma matches_nowhere_spec (ic : bool) (r : regex) (s : jstring) :
  matches_nowhere ic r s = true ->
  forall j, j <= length s -> run ic r (skipn j s) = None.
Proof.
  unfold matches_nowhere. rewrite forallb_forall. intros H j Hj.
  specialize (H j). rewrite in_seq in H.
  destruct (run ic r (skipn j s)); [|reflexivity].
  assert (false = true) by (apply H; lia). discriminate.
Qed.

(** A text in which no pattern of the table matches anywhere gives the empty
    array, whatever the [lastIndex] slots hold. *)
Lemma parseText_no_match (text : jstring) (this : AudioParser) :
  (forall p, matches_nowhere true (pattern_source p) text = true) ->
  parseText text this = (Normal [], this).
Proof.
  intros H. destruct (parseText_spec text this) as (l & E & F).
  assert (Hnil : forall p, String_matchAll text (pattern this p) = []).
  { intros p. unfold String_matchAll, matchAll. simpl.
    apply matchAll_from_nil. apply matches_nowhere_spec, H. }
  simpl in F. rewrite !Hnil in F. simpl in F. inversion F. subst. exact E.
Qed.

Lemma hasAudioUrls_loop_no_match (text : jstring) (keys : list platform) :
  (forall p, matches_nowhere true (pattern_source p) text = true) ->
  forall this, fst (hasAudioUrls_loop keys text this) = false.
Proof.
  intros H. induction keys as [|p keys IH]; intros this; [reflexivity|].
  simpl. unfold RegExp_test, RegExp_exec. simpl.
  unfold exec. rewrite exec_from_hd, matchAll_from_nil;
    [|apply matches_nowhere_spec, H].
  simpl. apply IH.
Qed.

Lemma flat_map_table_sorted (f : platform -> list MatchResult)
    (keys : list platform) :
  StronglySorted (fun p q => rank p <= rank q) keys ->
  StronglySorted (fun a b : platform * MatchResult => rank (fst a) <= rank (fst b))
    (flat_map (fun p => map (pair p) (f p)) keys).
Proof.
  induction 1 as [|p keys Hs IH Hall]; simpl; [constructor|].
  induction (f p) as [|mr ms IHm]; simpl; [exact IH|].
  constructor; [exact IHm|].
  apply Forall_app. split.
  - apply Forall_forall. intros x Hin. apply in_map_iff in Hin.
    destruct Hin as (y & <- & _). simpl. lia.
  - apply Forall_forall. intros x Hin. apply in_flat_map in Hin.
    destruct Hin as (q & Hq & Hin). apply in_map_iff in Hin.
    destruct Hin as (y & <- & _). simpl.
    rewrite Forall_forall in Hall. auto.
Qed.

Lemma Forall2_StronglySorted (A B : Type) (R : A -> B -> Prop)
    (S1 : A -> A -> Prop) (S2 : B -> B -> Prop) (l : list A) (l' : list B) :
  (forall a a' b b', R a a' -> R b b' -> S2 a' b' -> S1 a b) ->
  Forall2 R l l' -> StronglySorted S2 l' -> StronglySorted S1 l.
Proof.
  intros Hrel F. induction F as [|a a' l l' Ha F IH]; intros Hs;
    [constructor|].
  inversion Hs as [|? ? Hs' Hall]; subst. constructor; [auto|].
  clear IH Hs Hs'. induction F as [|b b' l l' Hb F IH]; [constructor|].
  inversion Hall; subst. constructor; eauto.
Qed.

Lemma platform_keys_sorted :
  StronglySorted (fun p q => rank p <= rank q) platform_keys.
Proof.
  unfold platform_keys. repeat (constructor; [|repeat constructor; simpl; lia]).
  constructor.
Qed.

Lemma getFirstAudio_hd (text : jstring) (this : AudioParser)
    (l : list AudioMatch) :
  parseText text this = (Normal l, this) ->
  getFirstAudio text this = (Normal (hd_error l), this).
Proof.
  intros E. unfold getFirstAudio. rewrite E. simpl. now destruct l.
Qed.

Lemma Forall2_reports_In (l : list AudioMatch)
    (l' : list (platform * MatchResult)) (pm : platform * MatchResult) :
  Forall2 reports l l' -> In pm l' -> exists a, In a l /\ reports a pm.
Proof.
  induction 1 as [|a x l l' Ha F IH]; intros Hin; [destruct Hin|].
  destruct Hin as [<-|Hin].
  - exists a. split; [now left|assumption].
  - destruct (IH Hin) as (b & Hb & Hr). exists b. split; [now right|assumption].
Qed.

(** The occurrences of a pattern of the table: each is a non-empty substring
    of the text, at its index, that the pattern matches. *)
Lemma occurrences_are_matches (text : jstring) (p : platform) :
  Forall (fun mr =>
            matched mr <> [] /\
            matched mr = substring (index mr) (length (matched mr)) text /\
            endIndex mr <= length text /\
            lang true (pattern_source p) (matched mr))
         (occurrences text p).
Proof.
  apply Forall_forall. intros mr Hin. unfold occurrences, matchAll in Hin.
  apply matchAll_from_In in Hin. destruct Hin as (j & Hi & _ & Hj & Hm).
  apply match_at_spec in Hm. destruct Hm as (_ & L & (s' & Hs) & _).
  simpl in Hi. unfold substring, endIndex. rewrite Hi, Hs.
  rewrite firstn_app, Nat.sub_diag, firstn_all. simpl. rewrite app_nil_r.
  repeat split; auto.
  - eapply pattern_lang_nonempty; eauto.
  - apply (f_equal (@length char)) in Hs.
    rewrite length_skipn, length_app in Hs. lia.
Qed.

(** Every place of the text where a string of the pattern stands begins
    inside a reported occurrence. *)
Lemma occurrences_cover (text : jstring) (p : platform) (a w b : jstring) :
  text = a ++ w ++ b -> lang true (pattern_source p) w ->
  exists mr, In mr (occurrences text p) /\ index mr <= length a < endIndex mr.
Proof.
  intros -> L.
  destruct (@matchAll_from_covers true (pattern_source p) (a ++ w ++ b) 0 0
              (length a)) as (mr & Hin & Hle & Hcase).
  - lia.
  - rewrite length_app. lia.
  - rewrite skipn_app, Nat.sub_diag, skipn_all. simpl.
    now apply run_complete.
  - exists mr. split; [exact Hin|]. simpl in *. split; [exact Hle|].
    destruct Hcase as [Hlt|Heq]; [exact Hlt|].
    pose proof (occurrences_are_matches (a ++ w ++ b) p) as Hall.
    rewrite Forall_forall in Hall. destruct (Hall mr Hin) as (Hne & _).
    unfold endIndex. destruct (matched mr); [congruence|simpl; lia].
Qed.

(** C1: on a fresh instance, [parseText] returns normally one element per
    occurrence of each platform's pattern in the text, platform after
    platform without merging across platforms; each element carries the
    platform whose pattern matched, the matched substring of the text as
    [url], and the output of that platform's builder on it.  The occurrences
    of a pattern are its matches in the order of the text: non-empty
    substrings the pattern matches, pairwise non-overlapping, and such that
    every place where a string of the pattern stands begins inside one of
    them. *)
Theorem parseText_one_match_per_occurrence (text : jstring) :
  exists l,
    parseText text AudioParser_new = (Normal l, AudioParser_new) /\
    Forall2 reports l
      (flat_map (fun p => map (pair p) (occurrences text p)) platform_keys) /\
    forall p,
      (forall mr, In mr (occurrences text p) ->
         exists a, In a l /\ am_platform a = p /\ url a = matched mr) /\
      Forall (fun mr =>
                matched mr <> [] /\
                matched mr = substring (index mr) (length (matched mr)) text /\
                endIndex mr <= length text /\
                lang true (pattern_source p) (matched mr))
             (occurrences text p) /\
      StronglySorted before (occurrences text p) /\
      (forall a w b, text = a ++ w ++ b -> lang true (pattern_source p) w ->
         exists mr, In mr (occurrences text p) /\
           index mr <= length a < endIndex mr).
Proof.
  destruct (parseText_spec text AudioParser_new) as (l & E & F).
  assert (F' : Forall2 reports l
            (flat_map (fun p => map (pair p) (occurrences text p))
               platform_keys)).
  { simpl in *. now rewrite !matchAll_new in F. }
  exists l. split; [exact E|]. split; [exact F'|].
  intros p. repeat split.
  - intros mr Hin.
    destruct (@Forall2_reports_In l _ (p, mr) F') as (a & Ha & Hp & Hu & _).
    + apply in_flat_map. exists p. split; [destruct p; simpl; tauto|].
      now apply in_map.
    + exists a. auto.
  - apply occurrences_are_matches.
  - apply matchAll_from_sorted.
  - intros a w b. apply occurrences_cover.
Qed.

(** The same URL twice gives two elements; a stretch of text two patterns
    match gives one element per platform. *)
Example parseText_repeated_url :
  option_map (map (fun a => (am_platform a, url a)))
    (match fst (parseText (js "youtu.be/abc youtu.be/abc") AudioParser_new) with
     | Normal l => Some l
     | Throw _ => None
     end)
  = Some [(youtube, js "youtu.be/abc"); (youtube, js "youtu.be/abc")].
Proof. vm_compute. reflexivity. Qed.

Example parseText_two_platforms :
  option_map (map (fun a => (am_platform a, url a)))
    (match fst (parseText (js "https://soundcloud.com/a/b.mp3") AudioParser_new)
     with
     | Normal l => Some l
     | Throw _ => None
     end)
  = Some [(soundcloud, js "https://soundcloud.com/a/b");
          (directAudio, js "https://soundcloud.com/a/b.mp3")].
Proof. vm_compute. reflexivity. Qed.

Lemma parseText_sorted (text : jstring) (this : AudioParser)
    (l : list AudioMatch) :
  Forall2 reports l
    (flat_map (fun p => map (pair p) (String_matchAll text (pattern this p)))
       platform_keys) ->
  StronglySorted table_order l.
Proof.
  intros F.
  eapply Forall2_StronglySorted; [|exact F|].
  - intros a a' b b' (Ha & _) (Hb & _) H. unfold table_order.
    rewrite Ha, Hb. exact H.
  - apply flat_map_table_sorted, platform_keys_sorted.
Qed.

Lemma no_links_here_nowhere (p : platform) :
  matches_nowhere true (pattern_source p) (js "no links here") = true.
Proof. destruct p; vm_compute; reflexivity. Qed.

(** C2: whatever the state of the instance, the array [parseText] returns is
    in the order of the table (soundcloud, youtube, spotify, bandcamp,
    directAudio): an element never comes from a platform registered later
    than the platform of an element after it, wherever the two stand in the
    text; [getFirstAudio] returns the first element of that array, or [null]
    when it is empty, and it returns [null] on "no links here". *)
Theorem parseText_in_table_order (text : jstring) (this : AudioParser) :
  exists l,
    parseText text this = (Normal l, this) /\
    StronglySorted table_order l /\
    map rank platform_keys = [0; 1; 2; 3; 4] /\
    getFirstAudio text this = (Normal (hd_error l), this) /\
    getFirstAudio (js "no links here") this = (Normal None, this) /\
    option_map (fun a => (am_platform a, url a))
      (hd_error
         (match fst (parseText (js "youtu.be/abc then soundcloud.com/a/b")
                       AudioParser_new) with
          | Normal l' => l'
          | Throw _ => []
          end))
    = Some (soundcloud, js "soundcloud.com/a/b").
Proof.
  destruct (parseText_spec text this) as (l & E & F).
  exists l. split; [exact E|]. split; [eapply parseText_sorted; eauto|].
  split; [reflexivity|]. split; [now apply getFirstAudio_hd|]. split.
  - apply (@getFirstAudio_hd _ _ []).
    apply parseText_no_match, no_links_here_nowhere.
  - vm_compute. reflexivity.
Qed.

(** C9: two calls of [parseText] in succession on the same text return the
    same array (same length, and the same platform, url and markup at every
    position); the first call returns normally and leaves the instance as it
    found it. *)
Theorem parseText_twice_same (text : jstring) (this : AudioParser) :
  let (r1, this1) := parseText text this in
  let (r2, this2) := parseText text this1 in
  r1 = r2 /\ this1 = this /\ this2 = this /\ exists l, r1 = Normal l.
Proof.
  destruct (parseText_spec text this) as (l & E & _).
  rewrite E, E. repeat split. eauto.
Qed.

(** C3, evaluated: on a fresh instance, two calls [hasAudioUrls(t)] with
    [t = "soundcloud.com/a/b"] return [true] and then [false], and
    [parseText(t)], which finds the link on a fresh instance, finds nothing
    after one [hasAudioUrls(t)]: the first call leaves [lastIndex = 18] in
    the SoundCloud pattern. *)
Theorem hasAudioUrls_leaves_state :
  let t := js "soundcloud.com/a/b" in
  let (b1, this1) := hasAudioUrls t AudioParser_new in
  let (b2, this2) := hasAudioUrls t this1 in
  b1 = true /\ b2 = false /\
  soundcloud_lastIndex this1 = 18 /\
  option_map (map url)
    (match fst (parseText t AudioParser_new) with
     | Normal l => Some l
     | Throw _ => None
     end) = Some [t] /\
  fst (parseText t this1) = Normal [].
Proof. vm_compute. repeat split; reflexivity. Qed.

(** ** Captures *)

Lemma names_nil (d : caps) :
  (forall n v, In (n, v) d -> In n []) -> d = [].
Proof.
  destruct d as [|[n v] d]; [reflexivity|].
  intros H. destruct (H n v). now left.
Qed.

Lemma grp_names_lit_chars (l : list ascii) : grp_names (lit_chars l) = [].
Proof.
  induction l as [|a [|b l] IH]; try reflexivity.
  change (grp_names (lit_chars (a :: b :: l)))
    with (grp_names (lit_chars (b :: l))). exact IH.
Qed.

(** Without the [i] flag a run of pattern characters matches itself only. *)
Lemma lang_lit_chars_exact (l : list ascii) :
  forall w, lang false (lit_chars l) w -> w = map chr l.
Proof.
  induction l as [|a [|b l] IH]; intros w L.
  - exact L.
  - destruct L as (ch & -> & E). simpl in E. now subst.
  - change (lit_chars (a :: b :: l))
      with (Cat (Chr (chr a)) (lit_chars (b :: l))) in L.
    destruct L as (w1 & w2 & -> & (ch & -> & E) & L2).
    simpl in E. subst. apply IH in L2. now subst.
Qed.

Lemma lang_lit_exact (s : string) (w : jstring) :
  lang false (lit s) w -> w = js s.
Proof. apply lang_lit_chars_exact. Qed.

Lemma lit_chars_lang_self (ic : bool) (l : list ascii) :
  lang ic (lit_chars l) (map chr l).
Proof.
  induction l as [|a [|b l] IH].
  - reflexivity.
  - simpl. eauto.
  - change (lit_chars (a :: b :: l))
      with (Cat (Chr (chr a)) (lit_chars (b :: l))).
    exists [chr a], (map chr (b :: l)). repeat split; auto.
    simpl. eauto.
Qed.

Lemma app_eq_length (A : Type) (a b c d : list A) :
  a ++ b = c ++ d -> length a = length c -> a = c.
Proof.
  revert c. induction a as [|x a IH]; intros [|y c]; simpl; try discriminate;
    auto.
  intros E H. injection E as -> E. f_equal. apply IH; auto.
Qed.

(** A successful match of a group: the captured string is the string the
    group's pattern matched. *)
Lemma m_Grp_sound (ic : bool) (R : Type) (n : nat) (r1 : regex) (s : jstring)
    (c : caps) (k : jstring -> caps -> option R) (x : R) :
  m ic (Grp n r1) s c k = Some x ->
  exists w s' d, s = w ++ s' /\ lang ic r1 w /\
    k s' ((n, w) :: d ++ c) = Some x /\
    (forall n' v, In (n', v) d -> In n' (grp_names r1)).
Proof.
  simpl. intros H. apply m_sound in H.
  destruct H as (w & s' & d & -> & L & Hk & G).
  exists w, s', d. repeat split; auto.
  rewrite length_app, Nat.add_sub in Hk.
  now rewrite firstn_app, Nat.sub_diag, firstn_all, app_nil_r in Hk.
Qed.

(** What [s.match(re)] returns for a pattern without the [g] flag is a match
    of the pattern at some position of [s]. *)
Lemma String_match_Some (ic : bool) (r : regex) (s : jstring)
    (mt : MatchResult) :
  String_match s (literal r false ic) = Some mt ->
  exists a b, s = a ++ matched mt ++ b /\ index mt = length a /\
    run ic r (matched mt ++ b) = Some (length (matched mt), groups mt).
Proof.
  unfold String_match, RegExp_exec, literal, exec. simpl.
  destruct (exec_from ic r s 0 0) as [mr|] eqn:E; simpl; [|discriminate].
  intros H. injection H as ->.
  rewrite exec_from_hd in E.
  assert (Hin : In mt (matchAll_from ic r s 0 0)).
  { destruct (matchAll_from ic r s 0 0); [discriminate|].
    injection E as ->. now left. }
  apply matchAll_from_In in Hin. destruct Hin as (j & Hi & _ & Hj & Hm).
  apply match_at_spec in Hm. destruct Hm as (_ & _ & (s' & Hs) & Hrun).
  exists (firstn j s), s'. rewrite <- Hs, firstn_skipn.
  repeat split; auto. rewrite length_firstn. simpl in Hi. lia.
Qed.

(** Where the pattern matches nowhere, [s.match(re)] is [null]. *)
Lemma String_match_None (ic : bool) (r : regex) (s : jstring) :
  String_match s (literal r false ic) = None <->
  forall j, j <= length s -> run ic r (skipn j s) = None.
Proof.
  unfold String_match, RegExp_exec, literal, exec. simpl. split.
  - destruct (exec_from ic r s 0 0) as [mr|] eqn:E; [discriminate|].
    intros _ j Hj. rewrite exec_from_hd in E.
    destruct (run ic r (skipn j s)) eqn:Hrun; [|reflexivity].
    destruct (@matchAll_from_covers ic r s 0 0 j) as (mr & Hin & _);
      [lia|assumption|congruence|].
    destruct (matchAll_from ic r s 0 0); [destruct Hin|discriminate].
  - intros H. rewrite exec_from_hd, matchAll_from_nil; auto.
Qed.

(** The shape of a match of a pattern [prefix([\w-]+)]: the capture is the
    non-empty run of [[\w-]] after the prefix. *)
Lemma youtube_id_pattern_match (shape : string) (url : jstring)
    (mt : MatchResult) :
  String_match url (youtube_id_pattern shape) = Some mt ->
  exists id, group 1 mt = Some id /\ id <> [] /\
    Forall (fun ch => cset_has false wordDash ch = true) id /\
    matched mt = js shape ++ id.
Proof.
  intros H. apply String_match_Some in H.
  destruct H as (a & b & _ & _ & Hrun).
  unfold run in Hrun. cbn [seq m] in Hrun.
  apply m_sound in Hrun. destruct Hrun as (w1 & s1 & d1 & E1 & L1 & Hrun & G1).
  unfold lit in G1. rewrite grp_names_lit_chars in G1.
  apply names_nil in G1. subst d1. apply lang_lit_exact in L1. subst w1.
  apply plus_m_sound in Hrun.
  destruct Hrun as (w2 & s2 & -> & Hne & Hall & Hrun).
  injection Hrun as Hlen Hg.
  rewrite length_app, Nat.add_sub, firstn_app, Nat.sub_diag, firstn_all in Hg.
  simpl in Hg. rewrite app_nil_r in Hg.
  exists w2. unfold group. rewrite <- Hg. simpl.
  repeat split; auto.
  apply (@app_eq_length _ _ b _ s2).
  - now rewrite <- app_assoc.
  - rewrite E1, !length_app in Hlen. rewrite length_app. lia.
Qed.

(** ** [createYouTubeEmbed] *)

(** C5: [createYouTubeEmbed] tries the three patterns in the order
    [watch?v=], [youtu.be/], [embed/] and the first that matches decides:
    the video ID is the non-empty run of [[\w-]] that follows the shape in
    that pattern's match, and the markup embeds it after [/embed/]; when none
    matches the result is the empty string.  The order of the patterns
    decides, not the position in the string.  In "check this
    https://youtu.be/dQw4w9WgXcQ out" the matched URL is
    "https://youtu.be/dQw4w9WgXcQ", its ID is "dQw4w9WgXcQ", and the markup
    has the source "https://www.youtube.com/embed/dQw4w9WgXcQ". *)
Theorem createYouTubeEmbed_first_pattern_wins (url : jstring) :
  youtube_id_patterns =
    [youtube_id_pattern "youtube.com/watch?v=";
     youtube_id_pattern "youtu.be/";
     youtube_id_pattern "youtube.com/embed/"] /\
  createYouTubeEmbed url =
    match String_match url (youtube_id_pattern "youtube.com/watch?v="),
          String_match url (youtube_id_pattern "youtu.be/"),
          String_match url (youtube_id_pattern "youtube.com/embed/") with
    | Some mt, _, _ | None, Some mt, _ | None, None, Some mt =>
        youtube_template (orEmpty (group 1 mt))
    | None, None, None => []
    end /\
  (forall shape mt,
     String_match url (youtube_id_pattern shape) = Some mt ->
     exists id, group 1 mt = Some id /\ id <> [] /\
       Forall (fun ch => cset_has false wordDash ch = true) id /\
       matched mt = js shape ++ id) /\
  (forall videoId,
     exists a b,
       youtube_template videoId =
       a ++ js "src=" ++ q (js "https://www.youtube.com/embed/" ++ videoId)
         ++ b) /\
  parseText (js "check this https://youtu.be/dQw4w9WgXcQ out") AudioParser_new
    = (Normal [mkAudioMatch youtube (js "https://youtu.be/dQw4w9WgXcQ")
                 (youtube_template (js "dQw4w9WgXcQ"))],
       AudioParser_new) /\
  option_map (group 1)
    (String_match (js "https://youtu.be/dQw4w9WgXcQ")
       (youtube_id_pattern "youtu.be/")) = Some (Some (js "dQw4w9WgXcQ")) /\
  createYouTubeEmbed (js "youtu.be/BBB youtube.com/watch?v=AAA")
    = youtube_template (js "AAA").
Proof.
  split; [reflexivity|]. split.
  - unfold createYouTubeEmbed, youtube_id_patterns, extractVideoId.
    destruct (String_match url (youtube_id_pattern "youtube.com/watch?v="))
      as [mt|] eqn:E1;
      [|destruct (String_match url (youtube_id_pattern "youtu.be/"))
          as [mt|] eqn:E2;
        [|destruct (String_match url (youtube_id_pattern "youtube.com/embed/"))
            as [mt|] eqn:E3; [|reflexivity]]];
      match goal with
      | H : String_match _ _ = Some _ |- _ =>
          apply youtube_id_pattern_match in H;
          destruct H as (id & -> & Hne & _); simpl;
          destruct id; [congruence|reflexivity]
      end.
  - split; [intros shape mt; apply youtube_id_pattern_match|].
    split.
    + intros videoId.
      exists (lines [js ""; js "      <iframe ";
                     js "        width=" ++ q (js "100%") ++ js " ";
                     js "        height=" ++ q (js "315") ++ js " "]
              ++ newline :: js "        ").
      eexists. unfold youtube_template, lines, q.
      change (js "        src=") with (js "        " ++ js "src=").
      repeat rewrite <- app_assoc. repeat rewrite <- app_comm_cons.
      repeat rewrite <- app_assoc.
      cbn [app js map list_ascii_of_string]. reflexivity.
    + repeat split; vm_compute; reflexivity.
Qed.

(** ** [createSpotifyEmbed] *)

Lemma m_Cat (ic : bool) (R : Type) (r1 r2 : regex) (s : jstring) (c : caps)
    (k : jstring -> caps -> option R) :
  m ic (Cat r1 r2) s c k = m ic r1 s c (fun s' c' => m ic r2 s' c' k).
Proof. reflexivity. Qed.

(** The shape of a match of the builder's pattern: the first capture is one
    of the three type words, the second the non-empty run of [[\w-]] after
    the slash. *)
Lemma spotify_embed_pattern_match (url : jstring) (mt : MatchResult) :
  String_match url spotify_embed_pattern = Some mt ->
  exists type id,
    group 1 mt = Some type /\ group 2 mt = Some id /\
    In type [js "track"; js "album"; js "playlist"] /\ id <> [] /\
    Forall (fun ch => cset_has false wordDash ch = true) id /\
    matched mt = js "spotify.com/" ++ type ++ js "/" ++ id.
Proof.
  intros H. apply String_match_Some in H.
  destruct H as (a & b & _ & _ & Hrun).
  unfold run in Hrun. cbn [seq] in Hrun. rewrite m_Cat in Hrun.
  apply m_sound in Hrun.
  destruct Hrun as (w1 & s1 & d1 & E1 & L1 & Hrun & G1).
  unfold lit in G1. rewrite grp_names_lit_chars in G1.
  apply names_nil in G1. subst d1. apply lang_lit_exact in L1. subst w1.
  rewrite m_Cat in Hrun. apply m_Grp_sound in Hrun.
  destruct Hrun as (type & s2 & d2 & -> & Lt & Hrun & G2).
  assert (Ht : In type [js "track"; js "album"; js "playlist"]).
  { cbn [alts lang] in Lt.
    destruct Lt as [L|[L|L]]; apply lang_lit_exact in L; subst; simpl; tauto. }
  assert (d2 = []) as ->.
  { apply names_nil. intros n v Hin. apply G2 in Hin. cbn [alts grp_names] in Hin.
    unfold lit in Hin. now rewrite !grp_names_lit_chars in Hin. }
  rewrite m_Cat in Hrun. apply m_sound in Hrun.
  destruct Hrun as (w3 & s3 & d3 & -> & L3 & Hrun & G3).
  unfold lit in G3. rewrite grp_names_lit_chars in G3.
  apply names_nil in G3. subst d3. apply lang_lit_exact in L3. subst w3.
  apply m_Grp_sound in Hrun.
  destruct Hrun as (id & s4 & d4 & -> & (Hne & Hall) & Hrun & G4).
  apply names_nil in G4. subst d4. injection Hrun as Hlen Hg.
  assert (Hm : matched mt = js "spotify.com/" ++ type ++ js "/" ++ id).
  { apply (@app_eq_length _ _ b _ s4).
    - now rewrite <- !app_assoc.
    - rewrite E1, !length_app in Hlen. rewrite !length_app. lia. }
  exists type, id. unfold group. rewrite <- Hg.
  repeat split; auto.
Qed.

(** C6: [createSpotifyEmbed] takes the type and the ID from the two captures
    of one pattern: the type is "track", "album" or "playlist" and the ID the
    non-empty run of [[\w-]] after it.  The height of the markup depends on
    the type only: "152" for a track and "380" for an album or a playlist,
    and 152 < 380.  For "https://open.spotify.com/track/abc123" the markup
    is the one of type "track", ID "abc123" and height "152". *)
Theorem createSpotifyEmbed_height_by_type (url : jstring) :
  ((String_match url spotify_embed_pattern = None /\
    createSpotifyEmbed url = []) \/
   (exists mt type id,
      String_match url spotify_embed_pattern = Some mt /\
      group 1 mt = Some type /\ group 2 mt = Some id /\
      In type [js "track"; js "album"; js "playlist"] /\ id <> [] /\
      matched mt = js "spotify.com/" ++ type ++ js "/" ++ id /\
      createSpotifyEmbed url = spotify_template type id (spotify_height type))) /\
  spotify_height (js "track") = js "152" /\
  spotify_height (js "album") = js "380" /\
  spotify_height (js "playlist") = js "380" /\
  (parseDecimal (spotify_height (js "track"))
   < parseDecimal (spotify_height (js "album")))%N /\
  (parseDecimal (spotify_height (js "track"))
   < parseDecimal (spotify_height (js "playlist")))%N /\
  createSpotifyEmbed (js "https://open.spotify.com/track/abc123")
    = spotify_template (js "track") (js "abc123") (js "152") /\
  includes (createSpotifyEmbed (js "https://open.spotify.com/track/abc123"))
    (js "height=" ++ q (js "152")) = true /\
  includes (createSpotifyEmbed (js "https://open.spotify.com/track/abc123"))
    (js "height=" ++ q (js "380")) = false.
Proof.
  split.
  - unfold createSpotifyEmbed.
    destruct (String_match url spotify_embed_pattern) as [mt|] eqn:E;
      [right|left; auto].
    apply spotify_embed_pattern_match in E as E'.
    destruct E' as (type & id & G1 & G2 & Ht & Hne & _ & Hm).
    exists mt, type, id. rewrite G1, G2. simpl. repeat split; auto.
  - repeat split; vm_compute; reflexivity.
Qed.

(** ** Texts without a link *)

Lemma has_audio_dot_false (s : jstring) :
  has_audio_dot s = false ->
  forall u x v, s = u ++ x :: dot :: v -> audio_dot x v = false.
Proof.
  intros H u. revert s H. induction u as [|y u IH]; intros s H x v ->.
  - cbn [app has_audio_dot] in H. rewrite N.eqb_refl in H.
    apply orb_false_iff in H. apply H.
  - apply (IH (u ++ x :: dot :: v)); [|reflexivity].
    cbn [app has_audio_dot] in H. destruct (u ++ x :: dot :: v) eqn:E.
    + now destruct u.
    + now apply orb_false_iff in H.
Qed.

Lemma starts_ci_app (p v b : jstring) :
  starts_ci p v = true -> starts_ci p (v ++ b) = true.
Proof.
  revert v. induction p as [|a p IH]; intros [|c v]; simpl; auto;
    [discriminate|].
  intros H. apply andb_true_iff in H. destruct H as [-> H]. simpl. auto.
Qed.

Lemma audio_dot_app (x : char) (v b : jstring) :
  audio_dot x v = true -> audio_dot x (v ++ b) = true.
Proof.
  unfold audio_dot. intros H. apply orb_true_iff in H.
  apply orb_true_iff. destruct H as [H|H]; [now left|right].
  apply existsb_exists in H. destruct H as (p & Hin & Hp).
  apply existsb_exists. exists p. split; [exact Hin|].
  now apply starts_ci_app.
Qed.

(** With the [i] flag a run of pattern characters matches character by
    character up to case. *)
Lemma lang_lit_chars_ci (l : list ascii) :
  forall w, lang true (lit_chars l) w ->
    Forall2 (fun a ch => toUpper (chr a) = toUpper ch) l w.
Proof.
  induction l as [|a [|b l] IH]; intros w L.
  - simpl in L. subst. constructor.
  - destruct L as (ch & -> & E). repeat constructor. exact E.
  - change (lit_chars (a :: b :: l))
      with (Cat (Chr (chr a)) (lit_chars (b :: l))) in L.
    destruct L as (w1 & w2 & -> & (ch & -> & E) & L2).
    constructor; [exact E|]. now apply IH.
Qed.

Lemma toUpper_dot (c : char) : toUpper (chr ".") = toUpper c -> c = dot.
Proof.
  unfold toUpper, dot. change (chr ".") with 46%N.
  change (isLower 46) with false. cbv iota.
  unfold isLower, in_range.
  destruct (N.leb_spec 97 c); destruct (N.leb_spec c 122); simpl; lia.
Qed.

(** Taking a literal apart. *)
Ltac inv_lit H :=
  unfold lit in H; apply lang_lit_chars_ci in H;
  cbv [list_ascii_of_string] in H;
  repeat match goal with
    | H' : Forall2 _ (_ :: _) _ |- _ => inversion H'; clear H'; subst
    | H' : Forall2 _ [] _ |- _ => inversion H'; clear H'; subst
    end;
  repeat match goal with
    | H' : toUpper (chr ".") = toUpper _ |- _ => apply toUpper_dot in H'; subst
    end.

(** Closing [audio_dot x v = true] from the case equations in context. *)
Ltac audio_dot_by_case :=
  unfold audio_dot; apply orb_true_iff;
  cbv [js list_ascii_of_string map existsb starts_ci app];
  repeat match goal with
    | H' : toUpper (chr _) = toUpper ?c |- _ => rewrite <- H'; clear H'
    end;
  first [left; vm_compute; reflexivity | right; vm_compute; reflexivity].

Lemma soundcloud_needs_dot (w : jstring) :
  lang true (pattern_source soundcloud) w ->
  exists u x v, w = u ++ x :: dot :: v /\ audio_dot x v = true.
Proof.
  cbn [pattern_source seq lang].
  intros (w1 & ? & -> & _ & w2 & ? & -> & _ & w3 & w4 & -> & L & _).
  inv_lit L.
  match goal with
  | |- context [?c1 :: ?c2 :: ?c3 :: ?c4 :: ?c5 :: ?c6 :: ?c7 :: ?c8 :: ?c9
                :: ?x :: dot :: ?v] =>
      exists (w1 ++ w2 ++ [c1; c2; c3; c4; c5; c6; c7; c8; c9]), x, (v ++ w4)
  end.
  split; [now rewrite <- !app_assoc|]. audio_dot_by_case.
Qed.

Lemma youtube_needs_dot (w : jstring) :
  lang true (pattern_source youtube) w ->
  exists u x v, w = u ++ x :: dot :: v /\ audio_dot x v = true.
Proof.
  cbn [pattern_source seq lang].
  intros (w1 & ? & -> & _ & w2 & ? & -> & _ & w3 & w4 & -> & [L|L] & _);
    inv_lit L.
  - match goal with
    | |- context [?c1 :: ?c2 :: ?c3 :: ?c4 :: ?c5 :: ?c6 :: ?x :: dot :: ?v] =>
        exists (w1 ++ w2 ++ [c1; c2; c3; c4; c5; c6]), x, (v ++ w4)
    end.
    split; [now rewrite <- !app_assoc|]. audio_dot_by_case.
  - match goal with
    | |- context [?c1 :: ?c2 :: ?c3 :: ?c4 :: ?x :: dot :: ?v] =>
        exists (w1 ++ w2 ++ [c1; c2; c3; c4]), x, (v ++ w4)
    end.
    split; [now rewrite <- !app_assoc|]. audio_dot_by_case.
Qed.

Lemma spotify_needs_dot (w : jstring) :
  lang true (pattern_source spotify) w ->
  exists u x v, w = u ++ x :: dot :: v /\ audio_dot x v = true.
Proof.
  cbn [pattern_source seq lang].
  intros (w1 & ? & -> & _ & w2 & ? & -> & _ & w3 & w4 & -> & L & _).
  inv_lit L.
  match goal with
  | |- context [?c1 :: ?c2 :: ?c3 :: ?c4 :: ?c5 :: ?c6 :: ?x :: dot :: ?v] =>
      exists (w1 ++ w2 ++ [c1; c2; c3; c4; c5; c6]), x, (v ++ w4)
  end.
  split; [now rewrite <- !app_assoc|]. audio_dot_by_case.
Qed.

Lemma bandcamp_needs_dot (w : jstring) :
  lang true (pattern_source bandcamp) w ->
  exists u x v, w = u ++ x :: dot :: v /\ audio_dot x v = true.
Proof.
  cbn [pattern_source seq lang].
  intros (w1 & ? & -> & _ & w2 & ? & -> & _ & w3 & w4 & -> & L & _).
  inv_lit L.
  match goal with
  | |- context [dot :: ?c2 :: ?c3 :: ?c4 :: ?c5 :: ?c6 :: ?c7 :: ?c8 :: ?x
                :: dot :: ?v] =>
      exists (w1 ++ w2 ++ [dot; c2; c3; c4; c5; c6; c7; c8]), x, (v ++ w4)
  end.
  split; [now rewrite <- !app_assoc|]. audio_dot_by_case.
Qed.

Lemma directAudio_needs_dot (w : jstring) :
  lang true (pattern_source directAudio) w ->
  exists u x v, w = u ++ x :: dot :: v /\ audio_dot x v = true.
Proof.
  cbn [pattern_source seq alts lang].
  intros (w1 & ? & -> & _ & w2 & ? & -> & _ & w3 & ? & -> & _ &
          P & ? & -> & (Hne & _) & D & E & -> & LD & LE).
  destruct (exists_last Hne) as (P' & x & ->).
  inv_lit LD.
  exists (w1 ++ w2 ++ w3 ++ P'), x, E.
  split; [now rewrite <- !app_assoc|].
  destruct LE as [L|[L|[L|[L|L]]]]; inv_lit L; audio_dot_by_case.
Qed.

(** Every string a pattern of the table matches has such a dot. *)
Lemma pattern_needs_dot (p : platform) (w : jstring) :
  lang true (pattern_source p) w ->
  exists u x v, w = u ++ x :: dot :: v /\ audio_dot x v = true.
Proof.
  destruct p; [apply soundcloud_needs_dot|apply youtube_needs_dot|
    apply spotify_needs_dot|apply bandcamp_needs_dot|
    apply directAudio_needs_dot].
Qed.

(** A text without such a dot has no match of any pattern at any position. *)
Lemma no_audio_dot_nowhere (text : jstring) (p : platform) :
  has_audio_dot text = false ->
  matches_nowhere true (pattern_source p) text = true.
Proof.
  intros H. unfold matches_nowhere. apply forallb_forall. intros j _.
  destruct (run true (pattern_source p) (skipn j text)) as [[n c]|] eqn:E;
    [|reflexivity].
  apply run_sound in E. destruct E as (w & s' & Hs & _ & L & _).
  apply pattern_needs_dot in L. destruct L as (u & x & v & -> & Hd).
  apply audio_dot_app with (b := s') in Hd.
  rewrite (@has_audio_dot_false text H (firstn j text ++ u) x (v ++ s')) in Hd;
    [discriminate|].
  rewrite <- (firstn_skipn j text) at 1. rewrite Hs, <- !app_assoc.
  reflexivity.
Qed.

Lemma has_audio_dot_no_dot (s : jstring) :
  no_dot s = true -> forall x, has_audio_dot (x :: s) = false.
Proof.
  induction s as [|d s IH]; intros H x; [reflexivity|].
  simpl in H. apply andb_true_iff in H. destruct H as [Hd Hs].
  cbn [has_audio_dot]. apply negb_true_iff in Hd. rewrite Hd. simpl.
  now apply (IH Hs d).
Qed.

Lemma has_audio_dot_prepend (pre s : jstring) (y : char) :
  no_dot pre = true -> (y =? dot)%N = false ->
  has_audio_dot (pre ++ y :: s) = has_audio_dot (y :: s).
Proof.
  intros Hpre Hy. induction pre as [|x pre IH]; [reflexivity|].
  unfold no_dot in Hpre. cbn [forallb] in Hpre.
  apply andb_true_iff in Hpre. destruct Hpre as [Hx Hpre].
  rewrite <- (IH Hpre). destruct pre as [|d pre].
  - cbn [app has_audio_dot]. rewrite Hy. reflexivity.
  - cbn [forallb] in Hpre. apply andb_true_iff in Hpre.
    destruct Hpre as [Hd _]. apply negb_true_iff in Hd.
    cbn [app has_audio_dot]. rewrite Hd. reflexivity.
Qed.

Lemma has_audio_dot_cons2 (x d : char) (v : jstring) :
  has_audio_dot (x :: d :: v) =
  ((d =? dot)%N && audio_dot x v) || has_audio_dot (d :: v).
Proof. reflexivity. Qed.

Lemma wordDash_not_dot (ic : bool) (c : char) :
  cset_has ic wordDash c = true -> negb (c =? dot)%N = true.
Proof.
  destruct (N.eqb_spec c dot) as [->|]; [|reflexivity].
  destruct ic; vm_compute; intros H; discriminate.
Qed.

Lemma wordDash_no_dot (ic : bool) (id : jstring) :
  forallb (cset_has ic wordDash) id = true -> no_dot id = true.
Proof.
  unfold no_dot. rewrite !forallb_forall. intros H c Hin.
  eapply wordDash_not_dot. eauto.
Qed.

(** A text whose only dots are those of one [youtube.com/embed/] URL has no
    dot that a pattern of the table needs. *)
Lemma embed_shape_no_audio_dot (pre scheme www id post : jstring) :
  In scheme [[]; js "http://"; js "https://"] ->
  In www [[]; js "www."] ->
  forallb (cset_has true wordDash) id = true ->
  no_dot pre = true -> no_dot post = true ->
  has_audio_dot (pre ++ youtube_embed_url scheme www id ++ post) = false.
Proof.
  intros Hs Hw Hid Hpre Hpost.
  assert (Hrest : has_audio_dot (chr "/" :: id ++ post) = false).
  { apply has_audio_dot_no_dot. unfold no_dot. rewrite forallb_app.
    apply andb_true_iff. split; [now apply wordDash_no_dot in Hid|exact Hpost]. }
  unfold youtube_embed_url.
  simpl in Hs, Hw.
  destruct Hs as [<-|[<-|[<-|[]]]]; destruct Hw as [<-|[<-|[]]];
    rewrite <- !app_assoc;
    cbv [js list_ascii_of_string map];
    repeat rewrite <- app_comm_cons; rewrite ?app_nil_l;
    (rewrite has_audio_dot_prepend; [|exact Hpre|reflexivity]);
    rewrite !has_audio_dot_cons2, Hrest; vm_compute; reflexivity.
Qed.

(** C10: the pattern of the [youtube] entry of the table has the shapes
    [youtube.com/watch?v=] and [youtu.be/] only, while the builder also
    extracts an ID from [youtube.com/embed/].  So for a text made of a
    [youtube.com/embed/<id>] URL (with or without [http://] or [https://]
    and [www.]) between two stretches of text without a dot, whatever the
    state of the instance, [parseText] returns the empty array,
    [hasAudioUrls] returns [false] and [getFirstAudio] returns [null]; the
    URL is not matched by the [youtube] pattern. *)
Theorem embed_shape_not_recognized (this : AudioParser)
    (pre scheme www id post : jstring) :
  In scheme [[]; js "http://"; js "https://"] ->
  In www [[]; js "www."] ->
  forallb (cset_has true wordDash) id = true ->
  no_dot pre = true -> no_dot post = true ->
  let text := pre ++ youtube_embed_url scheme www id ++ post in
  parseText text this = (Normal [], this) /\
  fst (hasAudioUrls text this) = false /\
  getFirstAudio text this = (Normal None, this) /\
  matches_exactly true (pattern_source youtube)
    (youtube_embed_url scheme www id) = false /\
  createYouTubeEmbed
    (youtube_embed_url (js "https://") (js "www.") (js "dQw4w9WgXcQ"))
  = youtube_template (js "dQw4w9WgXcQ").
Proof.
  intros Hs Hw Hid Hpre Hpost text.
  assert (Hno : forall p, matches_nowhere true (pattern_source p) text = true).
  { intros p. apply no_audio_dot_nowhere.
    now apply embed_shape_no_audio_dot. }
  split; [now apply parseText_no_match|].
  split; [now apply hasAudioUrls_loop_no_match|].
  split; [apply (@getFirstAudio_hd _ _ []); now apply parseText_no_match|].
  split; [|vm_compute; reflexivity].
  destruct (matches_exactly true (pattern_source youtube)
              (youtube_embed_url scheme www id)) eqn:E; [|reflexivity].
  apply matches_exactly_lang, pattern_needs_dot in E.
  destruct E as (u & x & v & E & Hd).
  pose proof (@embed_shape_no_audio_dot [] scheme www id [] Hs Hw Hid
                eq_refl eq_refl) as H.
  rewrite app_nil_l, app_nil_r in H.
  rewrite (@has_audio_dot_false _ H u x v E) in Hd. discriminate.
Qed.

Lemma embed_shape_not_recognized_witness :
  let text := js "watch https://www.youtube.com/embed/dQw4w9WgXcQ now" in
  parseText text AudioParser_new = (Normal [], AudioParser_new) /\
  fst (hasAudioUrls text AudioParser_new) = false /\
  getFirstAudio text AudioParser_new = (Normal None, AudioParser_new) /\
  matches_exactly true (pattern_source youtube)
    (js "https://www.youtube.com/embed/dQw4w9WgXcQ") = false /\
  createYouTubeEmbed (js "https://www.youtube.com/embed/dQw4w9WgXcQ")
  = youtube_template (js "dQw4w9WgXcQ").
Proof.
  apply (@embed_shape_not_recognized AudioParser_new (js "watch ")
           (js "https://") (js "www.") (js "dQw4w9WgXcQ") (js " now")).
  - simpl. tauto.
  - simpl. tauto.
  - vm_compute. reflexivity.
  - vm_compute. reflexivity.
  - vm_compute. reflexivity.
Defined.

(** ** Where the builders give up *)

(** An unpaired surrogate makes [encodeURIComponent], and with it the
    SoundCloud builder, raise [URIError]. *)
Lemma createSoundCloudEmbed_throws :
  createSoundCloudEmbed [55296%N] = Throw URIError.
Proof. reflexivity. Qed.

Lemma extractVideoId_none (patterns : list RegExp) (url videoId : jstring) :
  (forall re, In re patterns -> String_match url re = None) ->
  extractVideoId patterns url videoId = videoId.
Proof.
  induction patterns as [|re rest IH]; intros H; [reflexivity|].
  simpl. rewrite (H re (or_introl eq_refl)).
  apply IH. intros re' Hin. apply H. now right.
Qed.

(** C8, amended: the YouTube, Spotify, Bandcamp and direct-audio builders
    return normally on every string.  The SoundCloud builder returns normally
    on every well-formed string and raises [URIError] on a string with an
    unpaired surrogate; every string the SoundCloud pattern matches is
    well-formed, so every builder returns normally on the strings
    [parseText] passes to it, and [parseText] itself returns normally.  When
    none of the three ID patterns matches, the YouTube builder returns the
    empty string, as on "https://www.youtube.com/watch?v="; when its pattern
    does not match, so does the Spotify builder. *)
Theorem builders_degrade_without_error (url : jstring) :
  (forall p, p = soundcloud \/ exists html, embed p url = Normal html) /\
  (if isWellFormed url
   then exists html, createSoundCloudEmbed url = Normal html
   else createSoundCloudEmbed url = Throw URIError) /\
  (lang true (pattern_source soundcloud) url -> isWellFormed url = true) /\
  (forall p, lang true (pattern_source p) url ->
     exists html, embed p url = Normal html) /\
  (forall text this, exists l, parseText text this = (Normal l, this)) /\
  ((forall re, In re youtube_id_patterns -> String_match url re = None) ->
   createYouTubeEmbed url = []) /\
  (String_match url spotify_embed_pattern = None ->
   createSpotifyEmbed url = []) /\
  createYouTubeEmbed (js "https://www.youtube.com/watch?v=") = [].
Proof.
  split; [intros [| | | |]; simpl; eauto|].
  split.
  - unfold createSoundCloudEmbed.
    pose proof (encodeURIComponent_spec url) as H.
    destruct (isWellFormed url).
    + now apply (@bind_Normal _ _ (encodeURIComponent url) soundcloud_template).
    + rewrite H. reflexivity.
  - split.
    { intros L. apply isWellFormed_ascii.
      now apply (@ascii_only_lang true (pattern_source soundcloud)). }
    split; [intros p; apply embed_Normal_on_match|].
    split.
    + intros text this. destruct (parseText_spec text this) as (l & E & _).
      eauto.
    + split; [|split; [|vm_compute; reflexivity]].
      * intros H. unfold createYouTubeEmbed.
        now rewrite extractVideoId_none.
      * intros H. unfold createSpotifyEmbed. now rewrite H.
Qed.

(** C7, evaluated: the pattern of the [spotify] entry, which has the [i]
    flag, matches "https://Open.Spotify.com/track/abc123" and [parseText]
    reports it; the pattern of [createSpotifyEmbed], which has no flag, does
    not match it, and the element reported has the empty string as markup. *)
Theorem createSpotifyEmbed_empty_on_match :
  let u := js "https://Open.Spotify.com/track/abc123" in
  matches_exactly true (pattern_source spotify) u = true /\
  parseText (js "listen: " ++ u) AudioParser_new
    = (Normal [mkAudioMatch spotify u []], AudioParser_new) /\
  String_match u spotify_embed_pattern = None /\
  createSpotifyEmbed u = [].
Proof. vm_compute. repeat split; reflexivity. Qed.

(** C4, evaluated: in "soundcloudsoundcloud.com/a/b.com/a/b" the one matched
    URL is "soundcloud.com/a/b"; removing it joins what stood around it into
    "soundcloud.com/a/b" again, which is what [formatPostText] hands to
    [escapeHtml].  In the second text the URL "http://a<br>.mp3" is removed
    and the conversion of the line feed writes it anew. *)
Theorem formattedText_keeps_matched_url :
  let t1 := js "soundcloudsoundcloud.com/a/b.com/a/b" in
  let u1 := js "soundcloud.com/a/b" in
  let t2 := js "http://a<br>.mp3 see http://a" ++ newline :: js ".mp3" in
  let u2 := js "http://a<br>.mp3" in
  option_map (map url)
    (match fst (parseText t1 AudioParser_new) with
     | Normal l => Some l
     | Throw _ => None
     end) = Some [u1] /\
  fst (formattedText t1 AudioParser_new) = Normal u1 /\
  includes u1 u1 = true /\
  option_map (map url)
    (match fst (parseText t2 AudioParser_new) with
     | Normal l => Some l
     | Throw _ => None
     end) = Some [u2] /\
  fst (formattedText t2 AudioParser_new) = Normal (js " see " ++ u2) /\
  includes (js " see " ++ u2) u2 = true.
Proof. vm_compute. repeat split; reflexivity. Qed.

(** The defect of C7 is one of letter case only: on a string the [spotify]
    pattern of the table matches as it is written, without the help of the
    [i] flag, the pattern of the builder matches too and the markup is not
    empty. *)
Lemma createSpotifyEmbed_on_exact_case (u : jstring) :
  lang false (pattern_source spotify) u -> createSpotifyEmbed u <> [].
Proof.
  cbn [pattern_source seq lang].
  intros (w1 & ? & -> & _ & w2 & ? & -> & _ & L & ? & -> & HL &
          T & ? & -> & HT & S & I & -> & HS & HI).
  assert (Hm : String_match (w1 ++ w2 ++ L ++ T ++ S ++ I)
                 spotify_embed_pattern <> None).
  { intros Hnone. unfold spotify_embed_pattern in Hnone.
    rewrite String_match_None in Hnone.
    specialize (Hnone (length (w1 ++ w2))).
    rewrite app_assoc, skipn_app, Nat.sub_diag, skipn_all in Hnone.
    simpl in Hnone.
    rewrite <- (app_nil_r (L ++ T ++ S ++ I)) in Hnone.
    assert (Hr := Hnone ltac:(rewrite !length_app; lia)).
    revert Hr. apply run_complete.
    exists L, (T ++ S ++ I). repeat split; auto.
    exists T, (S ++ I). repeat split; auto.
    exists S, I. repeat split; auto; apply HI. }
  unfold createSpotifyEmbed.
  destruct (String_match (w1 ++ w2 ++ L ++ T ++ S ++ I) spotify_embed_pattern);
    [|congruence].
  unfold spotify_template. simpl. discriminate.
Qed.

Example createSpotifyEmbed_on_exact_case_example :
  matches_exactly false (pattern_source spotify)
    (js "https://open.spotify.com/album/4aawyAB9vmqN3uQ7FjRGTy") = true /\
  createSpotifyEmbed (js "https://open.spotify.com/album/4aawyAB9vmqN3uQ7FjRGTy")
  = spotify_template (js "album") (js "4aawyAB9vmqN3uQ7FjRGTy") (js "380").
Proof. split; vm_compute; reflexivity. Qed.

(** ** [hasAudioUrls] and the [lastIndex] slots *)

Lemma platform_eq_dec (p q : platform) : {p = q} + {p <> q}.
Proof. decide equality. Qed.

Lemma lastIndexOf_set_same (p : platform) (n : nat) (this : AudioParser) :
  lastIndexOf (setLastIndexOf p n this) p = n.
Proof. destruct p; reflexivity. Qed.

Lemma lastIndexOf_set_other (p q : platform) (n : nat) (this : AudioParser) :
  p <> q -> lastIndexOf (setLastIndexOf p n this) q = lastIndexOf this q.
Proof. destruct p, q; try reflexivity; intros H; now destruct H. Qed.

Lemma String_matchAll_lastIndex (text : jstring) (this this' : AudioParser)
    (p : platform) :
  lastIndexOf this' p = lastIndexOf this p ->
  String_matchAll text (pattern this' p) = String_matchAll text (pattern this p).
Proof. unfold String_matchAll, pattern. simpl. now intros ->. Qed.

(** One [test]: it succeeds where the iterator of [matchAll] would yield a
    first match, and leaves the end of that match, or 0, in [lastIndex]. *)
Lemma RegExp_test_pattern (text : jstring) (this : AudioParser) (p : platform) :
  RegExp_test (pattern this p) text =
  match hd_error (String_matchAll text (pattern this p)) with
  | Some mr => (true, set_lastIndex (endIndex mr) (pattern this p))
  | None => (false, set_lastIndex 0 (pattern this p))
  end.
Proof.
  unfold RegExp_test, RegExp_exec, String_matchAll, matchAll, exec. simpl.
  rewrite exec_from_hd.
  now destruct (hd_error (matchAll_from true (pattern_source p) text 0
                            (lastIndexOf this p))).
Qed.

Lemma hd_error_nil (A : Type) (l : list A) : hd_error l = None -> l = [].
Proof. now destruct l. Qed.

(** The loop of [hasAudioUrls] over a list of distinct keys. *)
Lemma hasAudioUrls_loop_spec (text : jstring) (keys : list platform) :
  NoDup keys ->
  forall this,
    let (found, this') := hasAudioUrls_loop keys text this in
    if found then
      exists pre p post mr,
        keys = pre ++ p :: post /\
        hd_error (String_matchAll text (pattern this p)) = Some mr /\
        (forall q, In q pre ->
           String_matchAll text (pattern this q) = [] /\
           lastIndexOf this' q = 0) /\
        lastIndexOf this' p = endIndex mr /\
        (forall q, ~ In q (pre ++ [p]) -> lastIndexOf this' q = lastIndexOf this q)
    else
      (forall q, In q keys ->
         String_matchAll text (pattern this q) = [] /\
         lastIndexOf this' q = 0) /\
      (forall q, ~ In q keys -> lastIndexOf this' q = lastIndexOf this q).
Proof.
  induction keys as [|k keys IH]; intros Hnd this.
  - simpl. split; [intros q []|reflexivity].
  - inversion Hnd as [|? ? Hk Hnd']; subst.
    cbn [hasAudioUrls_loop]. rewrite RegExp_test_pattern.
    destruct (hd_error (String_matchAll text (pattern this k)))
      as [mr|] eqn:E.
    + cbn [lastIndex set_lastIndex].
      exists [], k, keys, mr.
      split; [reflexivity|]. split; [exact E|].
      split; [intros q []|]. split; [apply lastIndexOf_set_same|].
      intros q Hq. apply lastIndexOf_set_other. simpl in Hq. tauto.
    + cbn [lastIndex set_lastIndex].
      set (this1 := setLastIndexOf k 0 this).
      assert (Hsame : forall q, q <> k ->
                lastIndexOf this1 q = lastIndexOf this q).
      { intros q Hq. apply lastIndexOf_set_other. congruence. }
      specialize (IH Hnd' this1).
      destruct (hasAudioUrls_loop keys text this1) as [found this'].
      destruct found.
      * destruct IH as (pre & p & post & mr & -> & Hhd & Hpre & Hp & Hrest).
        assert (Hpk : p <> k).
        { intros ->. apply Hk. apply in_app_iff. right. now left. }
        exists (k :: pre), p, post, mr.
        split; [reflexivity|]. split.
        { rewrite <- Hhd. f_equal. symmetry.
          apply String_matchAll_lastIndex. now apply Hsame. }
        split.
        { intros x [<-|Hin].
          - split; [now apply hd_error_nil|].
            rewrite Hrest; [apply lastIndexOf_set_same|].
            intros Hin. apply Hk. apply in_app_iff in Hin.
            destruct Hin as [Hin|[->|[]]]; apply in_app_iff;
              [now left|right; now left].
          - destruct (Hpre x Hin) as [Hm H0]. split; [|exact H0].
            rewrite <- Hm. symmetry. apply String_matchAll_lastIndex.
            apply Hsame. intros ->. apply Hk. apply in_app_iff. now left. }
        split; [exact Hp|].
        intros x Hx. rewrite Hrest; [apply Hsame|]; intros H; apply Hx.
        -- subst. now left.
        -- now right.
      * destruct IH as [Hall Hrest]. split.
        -- intros x [<-|Hin].
           ++ split; [now apply hd_error_nil|].
              rewrite Hrest; [apply lastIndexOf_set_same|exact Hk].
           ++ destruct (Hall x Hin) as [Hm H0]. split; [|exact H0].
              rewrite <- Hm. symmetry. apply String_matchAll_lastIndex.
              apply Hsame. intros ->. contradiction.
        -- intros x Hx. rewrite Hrest; [apply Hsame|]; intros H; apply Hx.
           ++ subst. now left.
           ++ now right.
Qed.

Lemma platform_keys_NoDup : NoDup platform_keys.
Proof.
  unfold platform_keys.
  repeat (constructor; [simpl; intuition discriminate|]). constructor.
Qed.

Lemma platform_keys_all (p : platform) : In p platform_keys.
Proof. destruct p; simpl; tauto. Qed.

Lemma AudioParser_ext (a b : AudioParser) :
  (forall p, lastIndexOf a p = lastIndexOf b p) -> a = b.
Proof.
  intros H. destruct a, b.
  pose proof (H soundcloud). pose proof (H youtube). pose proof (H spotify).
  pose proof (H bandcamp). pose proof (H directAudio). simpl in *. congruence.
Qed.

(** What [hasAudioUrls] returns and leaves behind, in any state. *)
Lemma hasAudioUrls_spec (text : jstring) (this : AudioParser) :
  let (found, this') := hasAudioUrls text this in
  if found then
    exists pre p post mr,
      platform_keys = pre ++ p :: post /\
      hd_error (String_matchAll text (pattern this p)) = Some mr /\
      (forall q, In q pre ->
         String_matchAll text (pattern this q) = [] /\
         lastIndexOf this' q = 0) /\
      lastIndexOf this' p = endIndex mr /\
      (forall q, In q post -> lastIndexOf this' q = lastIndexOf this q)
  else
    this' = AudioParser_new /\
    forall q, String_matchAll text (pattern this q) = [].
Proof.
  unfold hasAudioUrls.
  pose proof (hasAudioUrls_loop_spec text platform_keys_NoDup this) as H.
  destruct (hasAudioUrls_loop platform_keys text this) as [found this'].
  destruct found.
  - destruct H as (pre & p & post & mr & E & Hhd & Hpre & Hp & Hrest).
    exists pre, p, post, mr. repeat (split; [assumption|]).
    intros x Hx. apply Hrest. intros Hin.
    pose proof platform_keys_NoDup as Hnd. rewrite E in Hnd.
    replace (pre ++ p :: post) with ((pre ++ [p]) ++ post) in Hnd
      by now rewrite <- app_assoc.
    apply NoDup_app_remove_l in Hnd as Hpost.
    clear - Hnd Hin Hx.
    induction (pre ++ [p]) as [|y l IH]; [destruct Hin|].
    simpl in Hnd. inversion Hnd as [|? ? Hy Hnd']; subst.
    destruct Hin as [->|Hin]; [|now apply IH].
    apply Hy. apply in_app_iff. now right.
  - destruct H as [Hall _]. split.
    + apply AudioParser_ext. intros p.
      destruct (Hall p (platform_keys_all p)) as [_ ->]. now destruct p.
    + intros x. now apply Hall, platform_keys_all.
Qed.

(** X1: [hasAudioUrls], in any state.  It returns [true] when some pattern
    has a match at or after its [lastIndex]; then, for the first such
    platform in the order of the table, it leaves the end of that pattern's
    first match in its [lastIndex], has reset the [lastIndex] of the
    patterns before it to 0 and has not touched the patterns after it.  It
    returns [false] when no pattern has such a match, and then every
    [lastIndex] is 0 afterwards. *)
Theorem hasAudioUrls_short_circuits (text : jstring) (this : AudioParser) :
  let (found, this') := hasAudioUrls text this in
  if found then
    exists pre p post mr,
      platform_keys = pre ++ p :: post /\
      hd_error (String_matchAll text (pattern this p)) = Some mr /\
      (forall q, In q pre ->
         String_matchAll text (pattern this q) = [] /\
         lastIndexOf this' q = 0) /\
      lastIndexOf this' p = endIndex mr /\
      (forall q, In q post -> lastIndexOf this' q = lastIndexOf this q)
  else
    this' = AudioParser_new /\
    forall q, String_matchAll text (pattern this q) = [].
Proof. apply hasAudioUrls_spec. Qed.

Lemma flat_map_nil_all (A B : Type) (f : A -> list B) (l : list A) :
  (forall x, In x l -> f x = []) -> flat_map f l = [].
Proof.
  induction l as [|x l IH]; intros H; [reflexivity|].
  simpl. rewrite (H x (or_introl eq_refl)). apply IH.
  intros y Hy. apply H. now right.
Qed.

Lemma Forall2_nil_r (A B : Type) (R : A -> B -> Prop) (l : list A) :
  Forall2 R l [] -> l = [].
Proof. now inversion 1. Qed.

Lemma Forall2_length_pos (A B : Type) (R : A -> B -> Prop) (l : list A)
    (l' : list B) (y : B) :
  Forall2 R l l' -> In y l' -> exists a l0, l = a :: l0.
Proof. intros F Hin. destruct F; [destruct Hin|eauto]. Qed.

(** X2: on a fresh instance the three methods agree: [hasAudioUrls(text)] is
    [true] exactly when the array of [parseText(text)] is not empty, which
    is when [getFirstAudio(text)] is not [null]. *)
Theorem fresh_methods_agree (text : jstring) :
  exists l,
    parseText text AudioParser_new = (Normal l, AudioParser_new) /\
    getFirstAudio text AudioParser_new = (Normal (hd_error l), AudioParser_new) /\
    fst (hasAudioUrls text AudioParser_new) =
      match l with [] => false | _ :: _ => true end.
Proof.
  destruct (parseText_spec text AudioParser_new) as (l & E & F).
  exists l. split; [exact E|]. split; [now apply getFirstAudio_hd|].
  pose proof (hasAudioUrls_spec text AudioParser_new) as H.
  destruct (hasAudioUrls text AudioParser_new) as [found this']. simpl.
  destruct found.
  - destruct H as (pre & p & post & mr & _ & Hhd & _).
    destruct (String_matchAll text (pattern AudioParser_new p))
      as [|mr' ms] eqn:Em; [discriminate|].
    destruct (@Forall2_length_pos _ _ _ _ _ (p, mr') F) as (a & l0 & ->);
      [|reflexivity].
    apply in_flat_map. exists p. split; [apply platform_keys_all|].
    rewrite Em. now left.
  - destruct H as [_ Hnil].
    rewrite flat_map_nil_all in F; [|intros p _; now rewrite Hnil].
    apply Forall2_nil_r in F. now subst.
Qed.

(** X3: in any state a [true] from [hasAudioUrls(text)] is never wrong: the
    text then has a link that [parseText] reports on a fresh instance.  (A
    [false] can be wrong, as C3 shows.) *)
Theorem hasAudioUrls_true_is_sound (text : jstring) (this : AudioParser) :
  fst (hasAudioUrls text this) = false \/
  exists a l,
    parseText text AudioParser_new = (Normal (a :: l), AudioParser_new).
Proof.
  pose proof (hasAudioUrls_spec text this) as H.
  destruct (hasAudioUrls text this) as [found this']. simpl.
  destruct found; [right|now left].
  destruct H as (pre & p & post & mr & _ & Hhd & _).
  assert (Hin : In mr (String_matchAll text (pattern this p))).
  { destruct (String_matchAll text (pattern this p)); [discriminate|].
    injection Hhd as ->. now left. }
  unfold String_matchAll, matchAll in Hin. simpl in Hin.
  apply matchAll_from_In in Hin. destruct Hin as (j & _ & _ & Hj & Hm).
  apply match_at_spec in Hm. destruct Hm as (_ & _ & _ & Hrun).
  destruct (@matchAll_from_covers true (pattern_source p) text 0 0 j)
    as (mr' & Hin' & _); [lia|exact Hj|congruence|].
  destruct (parseText_spec text AudioParser_new) as (l & E & F).
  destruct (@Forall2_length_pos _ _ _ _ _ (p, mr') F) as (a & l0 & ->).
  - apply in_flat_map. exists p. split; [apply platform_keys_all|].
    rewrite matchAll_new. now apply in_map.
  - eauto.
Qed.

(** ** Matching from a [lastIndex] is matching the rest of the text *)

Lemma match_at_shift (ic : bool) (r : regex) (i : nat) (s : jstring) :
  match_at ic r i s = option_map (shift i) (match_at ic r 0 s).
Proof.
  unfold match_at. destruct (run ic r s) as [[n c]|]; [|reflexivity].
  simpl. unfold shift. simpl. now rewrite Nat.add_0_r.
Qed.

Lemma shift_shift (i j : nat) (mr : MatchResult) :
  shift i (shift j mr) = shift (i + j) mr.
Proof. unfold shift. simpl. now rewrite Nat.add_assoc. Qed.

Lemma matchAll_from_shift (ic : bool) (r : regex) (s : jstring) :
  forall i skip,
    matchAll_from ic r s i skip = map (shift i) (matchAll_from ic r s 0 skip).
Proof.
  induction s as [|ch s IH]; intros i [|k]; cbn [matchAll_from].
  - rewrite match_at_shift. now destruct (match_at ic r 0 []).
  - reflexivity.
  - rewrite match_at_shift.
    destruct (match_at ic r 0 (ch :: s)) as [mr|]; simpl.
    + f_equal. rewrite (IH (S i)), (IH 1), map_map.
      apply map_ext. intros x. rewrite shift_shift. f_equal. lia.
    + rewrite (IH (S i)), (IH 1), map_map.
      apply map_ext. intros x. rewrite shift_shift. f_equal. lia.
  - rewrite (IH (S i)), (IH 1), map_map.
    apply map_ext. intros x. rewrite shift_shift. f_equal. lia.
Qed.

(** The iterator started at [lastIndex = n] yields the matches of the text
    from position [n] on, and nothing when [n] is beyond the end. *)
Lemma matchAll_lastIndex (ic : bool) (r : regex) (s : jstring) (n : nat) :
  matchAll ic r s n =
  if Nat.leb n (length s)
  then map (shift n) (matchAll ic r (skipn n s) 0)
  else [].
Proof.
  unfold matchAll. revert n. induction s as [|ch s IH]; intros [|n].
  - simpl. rewrite map_ext with (g := fun x => x); [now rewrite map_id|].
    now intros [].
  - reflexivity.
  - cbn [length Nat.leb skipn].
    rewrite map_ext with (g := fun x => x); [now rewrite map_id|].
    now intros [].
  - cbn [matchAll_from length Nat.leb skipn].
    rewrite matchAll_from_shift, IH.
    destruct (Nat.leb n (length s)); [|reflexivity].
    rewrite map_map. apply map_ext. intros x. now rewrite shift_shift.
Qed.

Lemma run_nil_not_nullable (ic : bool) (r : regex) :
  nullable r = false -> run ic r [] = None.
Proof.
  intros Hn. destruct (run ic r []) as [[n c]|] eqn:E; [|reflexivity].
  apply run_sound in E. destruct E as (w & s' & Hs & _ & L & _).
  symmetry in Hs. apply app_eq_nil in Hs. destruct Hs as [-> _].
  apply lang_nullable in L. congruence.
Qed.

Lemma occurrences_nil (p : platform) : occurrences [] p = [].
Proof.
  unfold occurrences, matchAll. simpl. unfold match_at.
  now rewrite run_nil_not_nullable by apply pattern_not_nullable.
Qed.

Lemma Forall2_reports_map (l : list AudioMatch)
    (l' : list (platform * MatchResult)) :
  Forall2 reports l l' ->
  map (fun a => (am_platform a, url a)) l =
  map (fun pm => (fst pm, matched (snd pm))) l' /\
  Forall (fun a => embed (am_platform a) (url a) = Normal (embedHtml a)) l.
Proof.
  induction 1 as [|a pm l l' (Hp & Hu & He) F [IH1 IH2]].
  - split; constructor.
  - split.
    + simpl. now rewrite Hp, Hu, IH1.
    + constructor; [now rewrite Hp, Hu|exact IH2].
Qed.

(** X4: [parseText] in any state.  For each platform it reports, in the
    order of the table, exactly the URLs a fresh instance reports for the
    text from that pattern's [lastIndex] on, [text.substring(lastIndex)]
    (none when [lastIndex] is beyond the end); the markup of each element
    is the output of its platform's builder on its URL. *)
Theorem parseText_from_lastIndex (text : jstring) (this : AudioParser) :
  exists l,
    parseText text this = (Normal l, this) /\
    map (fun a => (am_platform a, url a)) l =
      flat_map
        (fun p =>
           map (fun mr => (p, matched mr))
             (occurrences (skipn (lastIndexOf this p) text) p))
        platform_keys /\
    Forall (fun a => embed (am_platform a) (url a) = Normal (embedHtml a)) l.
Proof.
  destruct (parseText_spec text this) as (l & E & F).
  exists l. split; [exact E|].
  apply Forall2_reports_map in F. destruct F as [Hm He].
  split; [|exact He]. rewrite Hm, flat_map_concat_map, concat_map, map_map.
  rewrite flat_map_concat_map. f_equal. apply map_ext. intros p.
  rewrite map_map. simpl. unfold String_matchAll. simpl.
  rewrite matchAll_lastIndex. unfold occurrences.
  destruct (Nat.leb_spec (lastIndexOf this p) (length text)) as [Hle|Hgt].
  - now rewrite map_map.
  - rewrite skipn_all2 by lia. fold (occurrences [] p).
    now rewrite occurrences_nil.
Qed.

(** ** Greedy matches are not cut short *)

Section Greedy.

Variable ic : bool.
Variable cs : cset.

Lemma plus_m_max (R : Type) (s : jstring) (k : jstring -> option R) (x : R) :
  (forall s', k s' <> None) ->
  plus_m ic cs s k = Some x ->
  exists w s', s = w ++ s' /\ k s' = Some x /\ stops_at ic cs s'.
Proof.
  intros Hk. induction s as [|ch s IH]; simpl; [discriminate|].
  destruct (cset_has ic cs ch) eqn:Hch; [|discriminate].
  destruct (plus_m ic cs s k) as [y|] eqn:Hrec; simpl; intros H.
  - injection H as ->. destruct (IH eq_refl) as (w & s' & -> & Hx & Hs).
    exists (ch :: w), s'. split; [reflexivity|]. split; assumption.
  - exists [ch], s. split; [reflexivity|]. split; [exact H|].
    destruct s as [|ch' s]; simpl; [exact I|].
    destruct (cset_has ic cs ch') eqn:Hch'; [|reflexivity].
    simpl in Hrec. rewrite Hch' in Hrec.
    destruct (plus_m ic cs s k); simpl in Hrec; [discriminate|].
    now destruct (Hk s).
Qed.

Lemma m_ends_max (R : Type) (r : regex) :
  EndsInPlus cs r ->
  forall (s : jstring) (c : caps) (k : jstring -> caps -> option R) (x : R),
    (forall s' c', k s' c' <> None) ->
    m ic r s c k = Some x ->
    exists w s' c', s = w ++ s' /\ k s' c' = Some x /\ stops_at ic cs s'.
Proof.
  induction 1 as [|n r He IH|r1 r2 He IH]; intros s c k x Hk H.
  - simpl in H. apply plus_m_max in H; [|intros s'; apply Hk].
    destruct H as (w & s' & -> & Hx & Hs).
    exists w, s', c. repeat split; assumption.
  - simpl in H. apply IH in H; [|intros s' c'; apply Hk].
    destruct H as (w & s' & c' & -> & Hx & Hs).
    eexists w, s', _. split; [reflexivity|]. split; [exact Hx|exact Hs].
  - rewrite m_Cat in H. apply m_sound in H.
    destruct H as (w1 & s1 & d & -> & _ & H & _).
    apply IH in H; [|exact Hk].
    destruct H as (w & s' & c' & -> & Hx & Hs).
    exists (w1 ++ w), s', c'. rewrite <- app_assoc.
    split; [reflexivity|]. split; assumption.
Qed.

Lemma run_ends_max (r : regex) (s : jstring) (n : nat) (c : caps) :
  EndsInPlus cs r -> run ic r s = Some (n, c) -> stops_at ic cs (skipn n s).
Proof.
  intros He H. unfold run in H. apply (m_ends_max He) in H; [|discriminate].
  destruct H as (w & s' & c' & -> & Hx & Hs). injection Hx as <- _.
  rewrite length_app, Nat.add_sub, skipn_app, Nat.sub_diag, skipn_all.
  exact Hs.
Qed.

End Greedy.

Lemma pattern_ends_in_wordDash (p : platform) :
  p = directAudio \/ EndsInPlus wordDash (pattern_source p).
Proof.
  destruct p; [right|right|right|right|now left];
    cbn [pattern_source seq]; repeat constructor.
Qed.

(** X5: the URLs of the first four platforms are never cut short: whatever
    the state of the instance, the character that follows a match of the
    soundcloud, youtube, spotify or bandcamp pattern in the text, if there
    is one, is neither a word character nor a hyphen, so the last segment
    of the URL (the ID) is reported whole. *)
Theorem match_takes_whole_id (text : jstring) (this : AudioParser)
    (p : platform) :
  p = directAudio \/
  Forall (fun mr =>
            match nth_error text (endIndex mr) with
            | Some ch => cset_has true wordDash ch = false
            | None => True
            end)
         (String_matchAll text (pattern this p)).
Proof.
  destruct (pattern_ends_in_wordDash p) as [->|He]; [now left|right].
  apply Forall_forall. intros mr Hin.
  unfold String_matchAll, matchAll in Hin. simpl in Hin.
  apply matchAll_from_In in Hin. destruct Hin as (j & Hi & _ & Hj & Hm).
  apply match_at_spec in Hm. destruct Hm as (_ & _ & _ & Hrun).
  apply (@run_ends_max _ _ _ _ _ _ He) in Hrun. unfold stops_at in Hrun.
  rewrite skipn_skipn in Hrun.
  unfold endIndex. simpl in Hi. rewrite Hi.
  replace (j + length (matched mr)) with (length (matched mr) + j) by lia.
  destruct (nth_error text (length (matched mr) + j)) as [ch|] eqn:E;
    [|exact I].
  apply nth_error_split in E. destruct E as (l1 & l2 & Ht & Hl).
  rewrite Ht, <- Hl, skipn_app, Nat.sub_diag, skipn_all in Hrun.
  exact Hrun.
Qed.

(** ** The characters of a reported URL *)

Lemma Canonicalize_cases (ic : bool) (a ch : char) :
  Canonicalize ic a = Canonicalize ic ch ->
  ch = a \/ ch = toUpper a \/ (isUpper a = true /\ ch = (a + 32)%N).
Proof.
  unfold Canonicalize, toUpper. destruct ic; [|intros ->; now left].
  unfold isLower, isUpper, in_range.
  destruct (N.leb_spec 97 a); destruct (N.leb_spec a 122);
    destruct (N.leb_spec 97 ch); destruct (N.leb_spec ch 122);
    destruct (N.leb_spec 65 a); destruct (N.leb_spec a 90);
    cbn [andb]; intros E;
    first [ left; lia | right; left; lia | right; right; split; [reflexivity|lia] ].
Qed.

Lemma chars_ok_lang (ic : bool) (P : char -> bool) (r : regex) :
  chars_ok ic P r ->
  forall w, lang ic r w -> Forall (fun ch => P ch = true) w.
Proof.
  induction r as [|a|cs|r1 IH1 r2 IH2|r1 IH1 r2 IH2|r1 IH1|cs|n r1 IH1];
    cbn [chars_ok lang]; intros Hr w L.
  - subst. constructor.
  - destruct L as (ch & -> & E). repeat constructor. auto.
  - destruct L as (ch & -> & E). repeat constructor. auto.
  - destruct Hr. destruct L as (w1 & w2 & -> & L1 & L2).
    apply Forall_app. auto.
  - destruct Hr. destruct L; auto.
  - destruct L as [->|L]; auto.
  - destruct L as [_ Hall]. eapply Forall_impl; [|exact Hall].
    intros ch Hch. exact (Hr ch Hch).
  - auto.
Qed.

Lemma wordDash_has (ic : bool) (ch : char) :
  cset_has ic wordDash ch = true -> isWordChar ch = true \/ ch = chr "-".
Proof.
  unfold cset_has, wordDash. cbn [negated members existsb citem_has xorb].
  destruct (isWordChar ch); [now left|]. cbn [orb].
  rewrite orb_false_r. intros H. apply N.eqb_eq, Canonicalize_cases in H.
  destruct H as [->|[->|[Hu _]]]; [now right|now right|discriminate].
Qed.

Lemma notSpace_has (ic : bool) (ch : char) :
  cset_has ic notSpace ch = true -> isWhiteSpace ch = false.
Proof.
  unfold cset_has, notSpace. cbn [negated members existsb citem_has].
  rewrite orb_false_r. now destruct (isWhiteSpace ch).
Qed.

Lemma isWordChar_range (ch : char) :
  isWordChar ch = true -> (48 <= ch <= 122)%N.
Proof.
  unfold isWordChar, isUpper, isLower, isDigit, in_range.
  destruct (N.leb_spec 65 ch); destruct (N.leb_spec ch 90);
    destruct (N.leb_spec 97 ch); destruct (N.leb_spec ch 122);
    destruct (N.leb_spec 48 ch); destruct (N.leb_spec ch 57);
    destruct (N.eqb_spec ch 95); cbn [andb orb]; intros; try discriminate;
    lia.
Qed.

Lemma isWordChar_not_space (ch : char) :
  isWordChar ch = true -> negb (isWhiteSpace ch) = true.
Proof.
  intros H. apply isWordChar_range in H. unfold isWhiteSpace, in_range.
  replace (ch <=? 13)%N with false by (symmetry; apply N.leb_gt; lia).
  replace (ch <=? 8202)%N with true by (symmetry; apply N.leb_le; lia).
  replace (8192 <=? ch)%N with false by (symmetry; apply N.leb_gt; lia).
  repeat match goal with
    | |- context [(ch =? ?b)%N] =>
        replace (ch =? b)%N with false by (symmetry; apply N.eqb_neq; lia)
    end.
  now rewrite andb_false_r.
Qed.

(** Closing [P ch = true] for the characters a pattern character can
    match. *)
Ltac chr_cases :=
  let ch := fresh "ch" in
  let H := fresh "H" in
  intros ch H; apply Canonicalize_cases in H;
  destruct H as [->|[->|[H ->]]];
  [vm_compute; reflexivity | vm_compute; reflexivity
  | first [vm_compute in H; discriminate | vm_compute; reflexivity]].

Lemma pattern_no_space (p : platform) :
  chars_ok true (fun c => negb (isWhiteSpace c)) (pattern_source p).
Proof.
  assert (Hw : forall ch, cset_has true wordDash ch = true ->
                 negb (isWhiteSpace ch) = true).
  { intros ch H. apply wordDash_has in H.
    destruct H as [H| ->]; [now apply isWordChar_not_space|reflexivity]. }
  assert (Hn : forall ch, cset_has true notSpace ch = true ->
                 negb (isWhiteSpace ch) = true).
  { intros ch H. apply notSpace_has in H. now rewrite H. }
  destruct p;
    cbv [pattern_source seq alts scheme lit lit_chars list_ascii_of_string
         chars_ok];
    repeat split; first [exact Hw | exact Hn | chr_cases].
Qed.

Lemma pattern_url_safe (p : platform) :
  p = directAudio \/ chars_ok true url_safe (pattern_source p).
Proof.
  assert (Hw : forall ch, cset_has true wordDash ch = true ->
                 url_safe ch = true).
  { intros ch H. apply wordDash_has in H. unfold url_safe.
    destruct H as [-> | ->]; reflexivity. }
  destruct p; [right|right|right|right|now left];
    cbv [pattern_source seq alts scheme lit lit_chars list_ascii_of_string
         chars_ok];
    repeat split; first [exact Hw | chr_cases].
Qed.

Lemma isPrefix_app (u b : jstring) : isPrefix u (u ++ b) = true.
Proof.
  induction u as [|c u IH]; [reflexivity|].
  simpl. now rewrite N.eqb_refl.
Qed.

Lemma includes_prefix (s u : jstring) :
  isPrefix u s = true -> includes s u = true.
Proof. intros H. destruct s; simpl; now rewrite H. Qed.

Lemma includes_cons (c : char) (s u : jstring) :
  includes s u = true -> includes (c :: s) u = true.
Proof. intros H. cbn [includes]. rewrite H. apply orb_true_r. Qed.

Lemma includes_app (a u b : jstring) : includes (a ++ u ++ b) u = true.
Proof.
  induction a as [|c a IH].
  - rewrite app_nil_l. apply includes_prefix, isPrefix_app.
  - apply includes_cons, IH.
Qed.

Lemma Forall2_In_l (A B : Type) (R : A -> B -> Prop) (l : list A)
    (l' : list B) (a : A) :
  Forall2 R l l' -> In a l -> exists b, In b l' /\ R a b.
Proof.
  induction 1 as [|x y l l' Hxy F IH]; intros Hin; [destruct Hin|].
  destruct Hin as [<-|Hin].
  - exists y. split; [now left|assumption].
  - destruct (IH Hin) as (b & Hb & Hr). exists b. split; [now right|assumption].
Qed.

(** What every element of the array of [parseText] is, in any state. *)
Lemma parseText_elements (text : jstring) (this : AudioParser) :
  exists l,
    parseText text this = (Normal l, this) /\
    forall a, In a l ->
      lang true (pattern_source (am_platform a)) (url a) /\
      (exists u v, text = u ++ url a ++ v) /\
      embed (am_platform a) (url a) = Normal (embedHtml a).
Proof.
  destruct (parseText_spec text this) as (l & E & F).
  exists l. split; [exact E|]. intros a Hin.
  destruct (@Forall2_In_l _ _ _ _ _ a F Hin) as ([p mr] & Hpm & Hp & Hu & He).
  simpl in Hp, Hu, He. apply in_flat_map in Hpm.
  destruct Hpm as (p' & _ & Hpm). apply in_map_iff in Hpm.
  destruct Hpm as (mr' & Heq & Hmr). injection Heq as -> ->.
  unfold String_matchAll, matchAll in Hmr. simpl in Hmr.
  apply matchAll_from_In in Hmr. destruct Hmr as (j & _ & _ & _ & Hm).
  apply match_at_spec in Hm. destruct Hm as (_ & L & (s' & Hs) & _).
  rewrite Hp, Hu. repeat split; auto.
  exists (firstn j text), s'. now rewrite <- Hs, firstn_skipn.
Qed.

(** X6: in any state, every URL [parseText] reports is a non-empty piece of
    the text, as it stands there, and has no white space in it. *)
Theorem reported_url_in_text (text : jstring) (this : AudioParser) :
  exists l,
    parseText text this = (Normal l, this) /\
    Forall (fun a =>
              url a <> [] /\
              includes text (url a) = true /\
              Forall (fun c => isWhiteSpace c = false) (url a)) l.
Proof.
  destruct (parseText_elements text this) as (l & E & H).
  exists l. split; [exact E|]. apply Forall_forall. intros a Hin.
  destruct (H a Hin) as (L & (u & v & Ht) & _). split; [|split].
  - eapply pattern_lang_nonempty; eauto.
  - rewrite Ht. apply includes_app.
  - apply (@chars_ok_lang _ _ _ (pattern_no_space (am_platform a))) in L.
    eapply Forall_impl; [|exact L]. intros c Hc. now apply negb_true_iff.
Qed.

(** X7: in any state, a URL reported for soundcloud, youtube, spotify or
    bandcamp is made of letters, digits and the characters [_ - . / : ? =]
    only; it holds no quote, angle bracket, ampersand or space. *)
Theorem reported_url_alphabet (text : jstring) (this : AudioParser) :
  exists l,
    parseText text this = (Normal l, this) /\
    Forall (fun a =>
              am_platform a = directAudio \/
              Forall (fun c =>
                        url_safe c = true /\
                        ~ In c [34; 39; 60; 62; 38; 32]%N) (url a)) l.
Proof.
  destruct (parseText_elements text this) as (l & E & H).
  exists l. split; [exact E|]. apply Forall_forall. intros a Hin.
  destruct (H a Hin) as (L & _ & _).
  destruct (pattern_url_safe (am_platform a)) as [Hd|Hok]; [now left|right].
  apply (@chars_ok_lang _ _ _ Hok) in L.
  eapply Forall_impl; [|exact L]. intros c Hc. split; [exact Hc|].
  intros Hbad. simpl in Hbad.
  destruct Hbad as [<-|[<-|[<-|[<-|[<-|[<-|[]]]]]]]; vm_compute in Hc;
    discriminate.
Qed.

(** ** What [encodeURIComponent] writes *)

Lemma uri_out_alnum (c : char) :
  isDigit c = true \/ isUpper c = true -> uri_out c = true.
Proof.
  unfold uri_out, uriUnescaped. intros [-> | ->];
    rewrite ?orb_true_r; reflexivity.
Qed.

Lemma hexDigit_out (n : N) : (n < 16)%N -> uri_out (hexDigit n) = true.
Proof.
  intros H. apply uri_out_alnum. unfold hexDigit, isDigit, isUpper, in_range.
  destruct (N.ltb_spec n 10).
  - left. apply andb_true_iff. split; apply N.leb_le; lia.
  - right. apply andb_true_iff. split; apply N.leb_le; lia.
Qed.

Lemma percentEncode_out (octet : N) :
  (octet < 256)%N -> Forall (fun c => uri_out c = true) (percentEncode octet).
Proof.
  intros H. unfold percentEncode. repeat constructor.
  - apply hexDigit_out. apply N.Div0.div_lt_upper_bound. lia.
  - apply hexDigit_out. apply N.mod_upper_bound. lia.
Qed.

Lemma utf8_octets (cp : N) :
  (cp < 1114112)%N -> Forall (fun b => (b < 256)%N) (utf8 cp).
Proof.
  intros H. unfold utf8.
  assert (Hm : forall x, (128 + x mod 64 < 256)%N).
  { intros x. pose proof (N.mod_upper_bound x 64). lia. }
  destruct (N.ltb_spec cp 128); [repeat constructor; lia|].
  destruct (N.ltb_spec cp 2048).
  { repeat constructor; [|apply Hm].
    assert (cp / 64 < 32)%N by (apply N.Div0.div_lt_upper_bound; lia). lia. }
  destruct (N.ltb_spec cp 65536).
  { repeat constructor; [|apply Hm|apply Hm].
    assert (cp / 4096 < 16)%N by (apply N.Div0.div_lt_upper_bound; lia). lia. }
  repeat constructor; [|apply Hm|apply Hm|apply Hm].
  assert (cp / 262144 < 5)%N by (apply N.Div0.div_lt_upper_bound; lia). lia.
Qed.

Lemma escapeCodePoint_out (cp : N) :
  (cp < 1114112)%N -> Forall (fun c => uri_out c = true) (escapeCodePoint cp).
Proof.
  intros H. unfold escapeCodePoint. apply utf8_octets in H.
  induction H as [|b l Hb _ IH]; cbn [flat_map]; [constructor|].
  apply Forall_app. split; [now apply percentEncode_out|exact IH].
Qed.

Lemma codePoint_range (c d : char) :
  isLeadSurrogate c = true -> isTrailSurrogate d = true ->
  (codePoint c d < 1114112)%N.
Proof.
  unfold isLeadSurrogate, isTrailSurrogate, in_range, codePoint.
  intros Hc Hd. apply andb_true_iff in Hc, Hd.
  destruct Hc as [Hc1 Hc2]. destruct Hd as [Hd1 Hd2].
  apply N.leb_le in Hc1, Hc2, Hd1, Hd2. lia.
Qed.

Lemma encodeURIComponent_cons (c : char) (s : jstring) :
  encodeURIComponent (c :: s) =
  if uriUnescaped c then r <- encodeURIComponent s ;; Normal (c :: r)
  else if isLeadSurrogate c then
    match s with
    | d :: s'' =>
        if isTrailSurrogate d then
          r <- encodeURIComponent s'' ;;
          Normal (escapeCodePoint (codePoint c d) ++ r)
        else Throw URIError
    | [] => Throw URIError
    end
  else if isTrailSurrogate c then Throw URIError
  else r <- encodeURIComponent s ;; Normal (escapeCodePoint c ++ r).
Proof. reflexivity. Qed.

Lemma bind_Normal_inv (A B : Type) (c : completion A) (f : A -> B) (b : B) :
  (x <- c ;; Normal (f x)) = Normal b -> exists a, c = Normal a /\ b = f a.
Proof. destruct c; simpl; intros H; [injection H as <-; eauto|discriminate]. Qed.

Lemma encodeURIComponent_out (s : jstring) :
  Forall (fun c => isCodeUnit c = true) s ->
  forall r, encodeURIComponent s = Normal r ->
    Forall (fun c => uri_out c = true) r.
Proof.
  induction s as [|c|c d s IH1 IH2] using jstring_pair_ind; intros Hs r.
  - simpl. intros H. injection H as <-. constructor.
  - inversion Hs as [|? ? Hc _]; subst. rewrite encodeURIComponent_cons.
    destruct (uriUnescaped c) eqn:U.
    + simpl. intros H. injection H as <-. repeat constructor.
      unfold uri_out. now rewrite U.
    + destruct (isLeadSurrogate c); [intros; discriminate|].
      destruct (isTrailSurrogate c); [intros; discriminate|].
      simpl. intros H. injection H as <-. rewrite app_nil_r.
      apply escapeCodePoint_out. apply N.ltb_lt in Hc. lia.
  - inversion Hs as [|? ? Hc Hs']; subst.
    inversion Hs' as [|? ? Hd Hs'']; subst.
    rewrite encodeURIComponent_cons.
    destruct (uriUnescaped c) eqn:U.
    + intros H. apply bind_Normal_inv in H. destruct H as (r' & E & ->).
      constructor; [|now apply IH2].
      unfold uri_out. now rewrite U.
    + destruct (isLeadSurrogate c) eqn:Lc.
      * destruct (isTrailSurrogate d) eqn:Td; [|intros; discriminate].
        intros H. apply bind_Normal_inv in H. destruct H as (r' & E & ->).
        apply Forall_app. split.
        -- apply escapeCodePoint_out. now apply codePoint_range.
        -- now apply IH1.
      * destruct (isTrailSurrogate c); [intros; discriminate|].
        intros H. apply bind_Normal_inv in H. destruct H as (r' & E & ->).
        apply Forall_app. split.
        -- apply escapeCodePoint_out. apply N.ltb_lt in Hc. lia.
        -- now apply IH2.
Qed.

Lemma encodeURIComponent_unescaped (s : jstring) :
  forallb uriUnescaped s = true -> encodeURIComponent s = Normal s.
Proof.
  induction s as [|c s IH]; [reflexivity|].
  cbn [forallb encodeURIComponent]. intros H.
  apply andb_true_iff in H. destruct H as [-> H]. now rewrite IH.
Qed.

(** X8: [createSoundCloudEmbed] puts its argument into the [src] of the
    player percent-encoded: on a string of 16-bit code units that has no
    unpaired surrogate, what it inserts is made of letters, digits, the
    marks [- _ . ! ~ * ' ( )] and [%] only, and is the argument itself when
    the argument is made of letters, digits and those marks; on a string
    with an unpaired surrogate it raises. *)
Theorem createSoundCloudEmbed_encodes (url : jstring) :
  forallb isCodeUnit url = true ->
  match createSoundCloudEmbed url with
  | Normal html =>
      exists encodedUrl,
        encodeURIComponent url = Normal encodedUrl /\
        html = soundcloud_template encodedUrl /\
        Forall (fun c => uri_out c = true) encodedUrl /\
        (forallb uriUnescaped url = true -> encodedUrl = url)
  | Throw _ => isWellFormed url = false
  end.
Proof.
  intros Hs. unfold createSoundCloudEmbed.
  rewrite forallb_forall in Hs. rewrite <- Forall_forall in Hs.
  pose proof (encodeURIComponent_spec url) as Hspec.
  destruct (encodeURIComponent url) as [enc|e] eqn:E; simpl.
  - exists enc. repeat split; auto.
    + now apply (@encodeURIComponent_out url Hs).
    + intros Hu. apply encodeURIComponent_unescaped in Hu. congruence.
  - destruct (isWellFormed url); [|reflexivity].
    destruct Hspec as (r & Hr). discriminate.
Qed.

Lemma createSoundCloudEmbed_encodes_witness :
  match createSoundCloudEmbed (js "https://soundcloud.com/a/b") with
  | Normal html =>
      exists encodedUrl,
        encodeURIComponent (js "https://soundcloud.com/a/b")
          = Normal encodedUrl /\
        html = soundcloud_template encodedUrl /\
        Forall (fun c => uri_out c = true) encodedUrl /\
        (forallb uriUnescaped (js "https://soundcloud.com/a/b") = true ->
         encodedUrl = js "https://soundcloud.com/a/b")
  | Throw _ => isWellFormed (js "https://soundcloud.com/a/b") = false
  end.
Proof.
  apply (@createSoundCloudEmbed_encodes (js "https://soundcloud.com/a/b")).
  vm_compute. reflexivity.
Defined.

(** ** [formatPostText] *)

Lemma splice_cons (ch : char) (s : jstring) (i : nat)
    (ms : list MatchResult) (rep : jstring) :
  (forall mr, In mr ms -> S i <= index mr) ->
  splice (ch :: s) i ms rep = ch :: splice s (S i) ms rep.
Proof.
  destruct ms as [|mr ms]; intros H; [reflexivity|].
  specialize (H mr (or_introl eq_refl)). cbn [splice]. unfold endIndex.
  replace (index mr - i) with (S (index mr - S i)) by lia.
  replace (index mr + length (matched mr) - i)
    with (S (index mr + length (matched mr) - S i)) by lia.
  reflexivity.
Qed.

(** Replacing every match of a one-character pattern replaces every
    occurrence of the character. *)
Lemma splice_char (c : char) (rep s : jstring) :
  forall i,
    splice s i (matchAll_from false (Chr c) s i 0) rep =
    flat_map (fun ch => if (c =? ch)%N then rep else [ch]) s.
Proof.
  induction s as [|ch s IH]; intros i; [reflexivity|].
  cbn [matchAll_from flat_map]. unfold match_at, run. cbn [m Canonicalize].
  destruct (c =? ch)%N.
  - replace (length (ch :: s) - length s) with 1 by (cbn [length]; lia).
    cbn [firstn matched length pred splice index]. unfold endIndex.
    cbn [index matched length].
    replace (i - i) with 0 by lia. replace (i + 1 - i) with 1 by lia.
    replace (i + 1) with (S i) by lia.
    cbn [firstn skipn app]. now rewrite IH.
  - rewrite splice_cons, IH; [reflexivity|].
    intros mr Hin. apply matchAll_from_In in Hin.
    destruct Hin as (j & -> & _). lia.
Qed.

Lemma String_replace_all_char (c : char) (s rep : jstring) :
  String_replace_all s (literal (Chr c) true false) rep =
  flat_map (fun ch => if (c =? ch)%N then rep else [ch]) s.
Proof. apply splice_char. Qed.

Lemma flat_map_br_no_newline (s : jstring) :
  ~ In newline
      (flat_map (fun ch => if (newline =? ch)%N then js "<br>" else [ch]) s).
Proof.
  induction s as [|ch s IH]; [intros []|].
  cbn [flat_map]. intros H. apply in_app_iff in H.
  destruct H as [H|H]; [|contradiction].
  destruct (N.eqb_spec newline ch) as [E|E].
  - simpl in H. intuition discriminate.
  - destruct H as [H|[]]. congruence.
Qed.

Lemma flat_map_id_no_newline (s : jstring) :
  ~ In newline s ->
  flat_map (fun ch => if (newline =? ch)%N then js "<br>" else [ch]) s = s.
Proof.
  induction s as [|ch s IH]; intros H; [reflexivity|].
  cbn [flat_map]. destruct (N.eqb_spec newline ch) as [E|E].
  - exfalso. apply H. now left.
  - simpl. f_equal. apply IH. intros Hin. apply H. now right.
Qed.

Lemma In_firstn (A : Type) (x : A) (n : nat) (l : list A) :
  In x (firstn n l) -> In x l.
Proof.
  intros H. rewrite <- (firstn_skipn n l). apply in_app_iff. now left.
Qed.

(** X9: in any state, what [formatPostText] hands to [escapeHtml] has at
    most 303 characters and no line feed in it. *)
Theorem formattedText_bounded (text : jstring) (this : AudioParser) :
  exists out,
    formattedText text this = (Normal out, this) /\
    length out <= maxLength + 3 /\
    ~ In newline out.
Proof.
  destruct (parseText_spec text this) as (l & E & _).
  unfold formattedText. rewrite E. cbn [bind].
  rewrite String_replace_all_char.
  set (removed := fold_left _ l text).
  set (br :=
         flat_map (fun ch => if (newline =? ch)%N then js "<br>" else [ch])
           removed).
  eexists. split; [reflexivity|].
  pose proof (flat_map_br_no_newline removed) as Hbr. fold br in Hbr.
  destruct (Nat.ltb_spec maxLength (length br)) as [Hlt|Hle].
  - split.
    + rewrite length_app, length_firstn.
      change (length (js "...")) with 3. lia.
    + intros H. apply in_app_iff in H. destruct H as [H|H].
      * apply Hbr. eapply In_firstn. exact H.
      * simpl in H. intuition discriminate.
  - split; [lia|exact Hbr].
Qed.

Lemma flat_map_eq_nil (A B : Type) (f : A -> list B) (l : list A) :
  flat_map f l = [] -> forall x, In x l -> f x = [].
Proof.
  induction l as [|y l IH]; simpl; intros H x; [intros []|].
  apply app_eq_nil in H. destruct H as [Hy Hl].
  intros [<-|Hin]; auto.
Qed.

(** A text in which a fresh instance finds nothing has no match of any
    pattern anywhere. *)
Lemma fresh_nothing_nowhere (text : jstring) :
  parseText text AudioParser_new = (Normal [], AudioParser_new) ->
  forall p, matches_nowhere true (pattern_source p) text = true.
Proof.
  intros E p. destruct (parseText_spec text AudioParser_new) as (l & E' & F).
  rewrite E in E'. injection E' as <-.
  assert (Hnil : flat_map
            (fun p => map (pair p) (String_matchAll text (pattern AudioParser_new p)))
            platform_keys = []) by (now inversion F).
  pose proof (flat_map_eq_nil _ _ Hnil p (platform_keys_all p)) as Hp.
  simpl in Hp. apply map_eq_nil in Hp. rewrite matchAll_new in Hp.
  unfold matches_nowhere. apply forallb_forall. intros j Hj.
  apply in_seq in Hj.
  destruct (run true (pattern_source p) (skipn j text)) eqn:Hrun;
    [|reflexivity].
  destruct (@matchAll_from_covers true (pattern_source p) text 0 0 j)
    as (mr & Hin & _); [lia|lia|congruence|].
  unfold occurrences, matchAll in Hp. rewrite Hp in Hin. destruct Hin.
Qed.

(** X10: a text in which a fresh instance finds no link, that has no line
    feed and at most 300 characters, reaches [escapeHtml] unchanged,
    whatever the state of the instance. *)
Theorem formattedText_plain (text : jstring) (this : AudioParser) :
  parseText text AudioParser_new = (Normal [], AudioParser_new) ->
  forallb (fun c => negb (c =? newline)%N) text = true ->
  Nat.leb (length text) maxLength = true ->
  formattedText text this = (Normal text, this).
Proof.
  intros Hnone Hnl Hlen.
  assert (Hno : ~ In newline text).
  { rewrite forallb_forall in Hnl. intros Hin. specialize (Hnl _ Hin).
    now rewrite N.eqb_refl in Hnl. }
  apply Nat.leb_le in Hlen.
  unfold formattedText.
  rewrite (parseText_no_match text this (fresh_nothing_nowhere Hnone)).
  cbn [bind fold_left]. rewrite String_replace_all_char.
  rewrite flat_map_id_no_newline by exact Hno.
  destruct (Nat.ltb_spec maxLength (length text)); [lia|reflexivity].
Qed.

Lemma formattedText_plain_witness :
  formattedText (js "Nuevo tema, escuchen!") AudioParser_new
  = (Normal (js "Nuevo tema, escuchen!"), AudioParser_new).
Proof.
  apply (@formattedText_plain (js "Nuevo tema, escuchen!") AudioParser_new).
  - vm_compute. reflexivity.
  - vm_compute. reflexivity.
  - vm_compute. reflexivity.
Defined.

(** ** [getTimeAgo] *)

Lemma div_ge1 (s u : Z) : (0 < u)%Z -> (1 <= s / u)%Z -> (u <= s)%Z.
Proof.
  intros Hu H. pose proof (Z.mul_div_le s u Hu). nia.
Qed.










(** ** [handleSearch] *)

Lemma trimStart_nil (s : jstring) :
  trimStart s = [] <-> forallb isWhiteSpace s = true.
Proof.
  induction s as [|c s IH]; simpl; [tauto|].
  destruct (isWhiteSpace c); simpl; [exact IH|].
  split; discriminate.
Qed.

Lemma trimStart_suffix (s : jstring) : exists a, s = a ++ trimStart s.
Proof.
  induction s as [|c s (a & IH)]; [now exists []|].
  simpl. destruct (isWhiteSpace c).
  - exists (c :: a). simpl. now f_equal.
  - now exists [].
Qed.

Lemma trimStart_head (s : jstring) (c : char) (s' : jstring) :
  trimStart s = c :: s' -> isWhiteSpace c = false.
Proof.
  induction s as [|d s IH]; simpl; [discriminate|].
  destruct (isWhiteSpace d) eqn:E; [exact IH|].
  intros H. injection H as <- _. exact E.
Qed.

(** [s.trim()] is empty exactly when [s] is white space throughout. *)
Lemma trim_nil (s : jstring) :
  trim s = [] <-> forallb isWhiteSpace s = true.
Proof.
  unfold trim. split.
  - intros H. apply (f_equal (@rev char)) in H. rewrite rev_involutive in H.
    simpl in H. apply trimStart_nil in H.
    destruct (trimStart s) as [|c s'] eqn:E; [now apply trimStart_nil|].
    apply trimStart_head in E. rewrite forallb_forall in H.
    rewrite (H c) in E; [discriminate|]. rewrite <- in_rev. now left.
  - intros H. apply trimStart_nil in H. now rewrite H.
Qed.

(** Which list [handleSearch] hands over. *)
Lemma handleSearch_blank_aux (toLowerCase : jstring -> jstring)
    (discussions : list Discussion) (query : jstring) :
  handleSearch toLowerCase discussions query =
  if forallb isWhiteSpace query then discussions
  else
    filter
      (fun d =>
         includes
           (toLowerCase
              (d_title d ++ js " " ++ d_body d ++ js " " ++ d_username d))
           (toLowerCase query))
      discussions.
Proof.
  unfold handleSearch. pose proof (trim_nil query) as H.
  destruct (trim query) as [|c s].
  - now rewrite (proj1 H eq_refl).
  - destruct (forallb isWhiteSpace query); [|reflexivity].
    pose proof (proj2 H eq_refl) as Hc. discriminate.
Qed.

(** X13: a query that is empty or white space throughout (spaces, tabs, line
    breaks, no-break spaces) hands every discussion to
    [renderDiscussions]; any other query hands over, in their order, the
    discussions whose lower-cased title, body and author name, joined by
    single spaces, contain the lower-cased query. *)
Theorem handleSearch_blank (toLowerCase : jstring -> jstring)
    (discussions : list Discussion) (query : jstring) :
  handleSearch toLowerCase discussions query =
  if forallb isWhiteSpace query then discussions
  else
    filter
      (fun d =>
         includes
           (toLowerCase
              (d_title d ++ js " " ++ d_body d ++ js " " ++ d_username d))
           (toLowerCase query))
      discussions.
Proof. apply handleSearch_blank_aux. Qed.

Lemma isPrefix_split (u s : jstring) :
  isPrefix u s = true -> exists b, s = u ++ b.
Proof.
  revert s. induction u as [|c u IH]; intros s H; [now exists s|].
  destruct s as [|d s]; [discriminate|]. simpl in H.
  apply andb_true_iff in H. destruct H as [E H]. apply N.eqb_eq in E.
  subst. destruct (IH _ H) as (b & ->). now exists b.
Qed.

Lemma includes_split (s u : jstring) :
  includes s u = true -> exists a b, s = a ++ u ++ b.
Proof.
  induction s as [|c s IH]; cbn [includes]; intros H.
  - rewrite orb_false_r in H. apply isPrefix_split in H.
    destruct H as (b & ->). now exists [], b.
  - apply orb_true_iff in H. destruct H as [H|H].
    + apply isPrefix_split in H. destruct H as (b & ->). now exists [], b.
    + destruct (IH H) as (a & b & ->). now exists (c :: a), b.
Qed.

Lemma includes_trans (s u v : jstring) :
  includes s u = true -> includes u v = true -> includes s v = true.
Proof.
  intros H1 H2. apply includes_split in H1, H2.
  destruct H1 as (a & b & ->). destruct H2 as (a' & b' & ->).
  replace (a ++ (a' ++ v ++ b') ++ b) with ((a ++ a') ++ v ++ (b' ++ b))
    by now rewrite <- !app_assoc.
  apply includes_app.
Qed.

(** X14: a query whose lower-cased form contains the lower-cased form of
    another query never finds a discussion the other does not find. *)
Theorem handleSearch_narrows (toLowerCase : jstring -> jstring)
    (discussions : list Discussion) (q1 q2 : jstring) :
  includes (toLowerCase q2) (toLowerCase q1) = true ->
  forallb isWhiteSpace q2 = false ->
  incl (handleSearch toLowerCase discussions q2)
       (handleSearch toLowerCase discussions q1).
Proof.
  intros Hinc Hq2. rewrite !handleSearch_blank_aux, Hq2.
  intros d Hd. apply filter_In in Hd. destruct Hd as [Hin Hd].
  destruct (forallb isWhiteSpace q1); [exact Hin|].
  apply filter_In. split; [exact Hin|].
  eapply includes_trans; eauto.
Qed.

Lemma handleSearch_narrows_witness :
  incl
    (handleSearch (fun s => s)
       [mkDiscussion (js "jazz night") (js "live set") (js "ana");
        mkDiscussion (js "rock") (js "demo") (js "luis")]
       (js "jazz n"))
    (handleSearch (fun s => s)
       [mkDiscussion (js "jazz night") (js "live set") (js "ana");
        mkDiscussion (js "rock") (js "demo") (js "luis")]
       (js "jazz")).
Proof.
  apply (@handleSearch_narrows (fun s => s) _ (js "jazz") (js "jazz n")).
  - vm_compute. reflexivity.
  - vm_compute. reflexivity.
Defined.

(** ** The refresh timer *)

Lemma remove_fresh (h : positive) (l : list positive) :
  Forall (fun x => (x < h)%positive) l -> remove Pos.eq_dec h l = l.
Proof.
  intros H. apply notin_remove. intros Hin.
  rewrite Forall_forall in H. specialize (H h Hin). lia.
Qed.

Lemma refresh_inv_step (t0 : Timers) (c : RefreshCall) (st : RefreshState) :
  Forall (fun x => (x < nextHandle t0)%positive) (running t0) ->
  refresh_inv t0 st -> refresh_inv t0 (refreshCall c st).
Proof.
  intros H0. destruct st as [[h|] t]; destruct c; simpl;
    unfold clearInterval; simpl.
  - intros (Hn & -> & Hh). simpl. destruct (Pos.eq_dec h h); [|congruence].
    rewrite remove_fresh.
    + repeat split; lia.
    + eapply Forall_impl; [|exact H0]. intros x Hx. simpl in Hx. lia.
  - intros (Hn & -> & Hh). simpl. destruct (Pos.eq_dec h h); [|congruence].
    rewrite remove_fresh.
    + split; [lia|reflexivity].
    + eapply Forall_impl; [|exact H0]. intros x Hx. simpl in Hx. lia.
  - intros (Hn & ->). repeat split; lia.
  - intros (Hn & ->). split; [lia|reflexivity].
Qed.

Lemma refresh_inv_calls (t0 : Timers) (calls : list RefreshCall) :
  Forall (fun x => (x < nextHandle t0)%positive) (running t0) ->
  forall st, refresh_inv t0 st ->
    refresh_inv t0 (fold_left (fun st c => refreshCall c st) calls st).
Proof.
  intros H0. induction calls as [|c calls IH]; intros st Hst; [exact Hst|].
  simpl. apply IH. now apply refresh_inv_step.
Qed.

(** X15: however [startAutoRefresh] and [stopAutoRefresh] are called, from
    the state the constructor leaves ([autoRefreshTimer] is [null]), the
    application never has more than one interval timer running: the timers
    of the page are those that ran before plus the one whose handle is in
    [autoRefreshTimer], and none of its own when that field is [null]. *)
Theorem refresh_timer_single (t0 : Timers) (calls : list RefreshCall) :
  forallb (fun x => (x <? nextHandle t0)%positive) (running t0) = true ->
  let (timer, t) :=
    fold_left (fun st c => refreshCall c st) calls (None, t0) in
  running t =
    match timer with
    | Some h => [h]
    | None => []
    end ++ running t0.
Proof.
  intros H. rewrite forallb_forall in H.
  assert (H0 : Forall (fun x => (x < nextHandle t0)%positive) (running t0)).
  { apply Forall_forall. intros x Hx. now apply Pos.ltb_lt, H. }
  assert (Hinv := @refresh_inv_calls t0 calls H0 (None, t0)).
  unfold RefreshState in *.
  destruct (fold_left _ calls (None, t0)) as [[h|] t]; simpl in Hinv.
  - destruct Hinv as (_ & -> & _); [|reflexivity].
    split; [lia|reflexivity].
  - destruct Hinv as (_ & ->); [|reflexivity].
    split; [lia|reflexivity].
Qed.

Lemma refresh_timer_single_witness :
  let (timer, t) :=
    fold_left (fun st c => refreshCall c st)
      [CallStart; CallStart; CallStop; CallStart]
      (None, mkTimers [2; 1]%positive 3%positive) in
  running t =
    match timer with
    | Some h => [h]
    | None => []
    end ++ [2; 1]%positive.
Proof.
  apply (@refresh_timer_single (mkTimers [2; 1]%positive 3%positive)
           [CallStart; CallStart; CallStop; CallStart]).
  vm_compute. reflexivity.
Defined.
